(** * Drawlatch ingestor subsystem: ring buffer, base ingestor, webhook
    signature checks and the ingestor manager.

    A shallow embedding of the TypeScript sources, followed by the
    properties of the specification proved about it.

    Conventions of the embedding.
    - JavaScript numbers that the code uses as counters, indices and ids
      are mathematical integers ([Z]); the [%] operator is [Z.rem] (sign
      of the dividend), as in JavaScript. Numbers that come out of request
      text through [Number], and what is computed from them, are IEEE 754
      binary64 values ([number]).
    - [undefined] in an array slot or an optional field is [None].
    - A raised exception is [None] in an [option] result.
    - Strings are sequences of 8-bit code units; a [Buffer] is a list of
      bytes.
    - A plain object with string values is the finite map of its own
      properties; reading a property also finds the members that the
      object inherits from [Object.prototype].
    - Node built-ins whose bodies are not part of the repository (HMAC,
      [JSON.parse], [Number], [localeCompare]) are methods of type
      classes, and every function is embedded over the classes it calls;
      hex and base64 decoding are written out; the clock is an argument of
      the functions that read it. *)

From stdpp Require Import base option list sorting gmap strings pretty.
From Stdlib Require Import ZArith Lia Ascii.
From Stdlib.Strings Require Byte.
From Stdlib.Structures Require OrderedTypeEx.
From Stdlib.Floats Require SpecFloat.

#[local] Open Scope Z_scope.

(** * Part I: the embedding *)

(** ** The JavaScript runtime *)

Abbreviation Buffer := (list Byte.byte).

#[global] Instance byte_eq_dec : EqDecision Byte.byte := Byte.byte_eq_dec.

(** A JavaScript number as a value of IEEE 754 binary64: zero, infinity,
    NaN, or a finite value with sign, mantissa and exponent. *)
Abbreviation number := SpecFloat.spec_float.

(** [JSON.parse(text)]; [JSON] is the type of the values it returns, and
    [None] stands for the SyntaxError it raises. *)
Class JsonParser := {
  JSON : Type;
  JSON_parse : string → option JSON;
}.

(** [buf.toString('utf-8')] *)
Class Utf8Decoder := {
  Buffer_toString : Buffer → string;
}.

(** [crypto.createHmac('sha256', key).update(text).digest('hex')] *)
Class HmacSha256 := {
  hmac_sha256_hex : string → string → string;
}.

(** [crypto.createHmac('sha1', key).update(text).digest('base64')] *)
Class HmacSha1 := {
  hmac_sha1_base64 : string → string → string;
}.

(** [Number(text)], and the conversion of a number inside a template
    literal. *)
Class NumberConversion := {
  Number : string → number;
  Number_toString : number → string;
}.

(** [a.localeCompare(b)] *)
Class Collator := {
  localeCompare : string → string → Z;
}.

Module JS.

(** Arithmetic on numbers is that of binary64: 53 bits of precision,
    exponents below 1024. *)
Definition prec : Z := 53.
Definition emax : Z := 1024.

(** The number of an integer literal (the nearest one, for an integer
    beyond 2^53). *)
Definition number_of_Z (z : Z) : number := SpecFloat.binary_normalize prec emax z 0 false.

(** [Number.isNaN(x)] *)
Definition isNaN (x : number) : bool :=
  match x with
  | SpecFloat.S754_nan => true
  | _ => false
  end.

(** [x - y], [Math.abs(x)] and [x > y]; a comparison with NaN is false. *)
Definition minus (x y : number) : number := SpecFloat.SFsub prec emax x y.
Definition Math_abs (x : number) : number := SpecFloat.SFabs x.
Definition gt (x y : number) : bool := SpecFloat.SFltb y x.

(** [arr[i] = x] on an array with holes: inside the array it overwrites,
    past the end it extends the array (the gap stays [undefined]); a
    negative index does not touch the indexed elements. *)
Definition array_set {A} (arr : list (option A)) (i : Z) (x : A) : list (option A) :=
  if bool_decide (i < 0) then arr
  else if bool_decide (i < Z.of_nat (length arr)) then <[Z.to_nat i := Some x]> arr
  else arr ++ replicate (Z.to_nat i - length arr) None ++ [Some x].

(** [arr[i]]: a hole, or an index outside the array, reads [undefined]. *)
Definition array_get {A} (arr : list (option A)) (i : Z) : option A :=
  if bool_decide (i < 0) then None else mjoin (arr !! Z.to_nat i).

(** [new Array(n)]: [n] holes. *)
Definition new_Array {A} (n : Z) : list (option A) := replicate (Z.to_nat n) None.

(** Truthiness of a value of type [string | undefined]: [undefined] and
    the empty string are falsy. *)
Definition truthy (v : option string) : bool :=
  match v with
  | Some s => bool_decide (s ≠ "")
  | None => false
  end.

(** The string-keyed members of [Object.prototype], which every plain
    object inherits. *)
Definition Object_prototype : list string :=
  ["constructor"; "__defineGetter__"; "__defineSetter__"; "hasOwnProperty";
   "__lookupGetter__"; "__lookupSetter__"; "isPrototypeOf"; "propertyIsEnumerable";
   "toString"; "valueOf"; "__proto__"; "toLocaleString"].

(** What [obj[name]] reads from a plain object with string values: the
    string of an own property, or else the member of that name inherited
    from [Object.prototype] (a function; the prototype itself for
    [__proto__]); [None] is [undefined]. *)
Inductive Property :=
  | OwnString (s : string)
  | Inherited (name : string).

Definition get (obj : gmap string string) (name : string) : option Property :=
  match obj !! name with
  | Some s => Some (OwnString s)
  | None => if bool_decide (name ∈ Object_prototype) then Some (Inherited name) else None
  end.

(** Truthiness of such a value: functions and objects are truthy. *)
Definition truthy_property (v : option Property) : bool :=
  match v with
  | Some (OwnString s) => bool_decide (s ≠ "")
  | Some (Inherited _) => true
  | None => false
  end.

(** [s.split(sep)] for a separator of one character. *)
Fixpoint split (sep : Ascii.ascii) (s : string) : list string :=
  match s with
  | EmptyString => [EmptyString]
  | String c s' =>
      if bool_decide (c = sep) then EmptyString :: split sep s'
      else match split sep s' with
           | piece :: pieces => String c piece :: pieces
           | [] => [String c EmptyString]
           end
  end.

(** [s.split(sep, limit)]: the first [limit] pieces of [s.split(sep)]. *)
Definition split_limit (sep : Ascii.ascii) (limit : nat) (s : string) : list string :=
  take limit (split sep s).

(** White space removed by [trim], among the 8-bit code units: TAB, LF, VT,
    FF, CR, SPACE and NBSP. *)
Definition is_white_space (c : Ascii.ascii) : bool :=
  let n := Ascii.N_of_ascii c in
  bool_decide (n = 9 ∨ n = 10 ∨ n = 11 ∨ n = 12 ∨ n = 13 ∨ n = 32 ∨ n = 160)%N.

Fixpoint trimStart (s : string) : string :=
  match s with
  | EmptyString => EmptyString
  | String c s' => if is_white_space c then trimStart s' else s
  end.

Definition trim (s : string) : string :=
  String.rev (trimStart (String.rev (trimStart s))).

(** [s.startsWith(p)] *)
Fixpoint startsWith (s p : string) : bool :=
  match p, s with
  | EmptyString, _ => true
  | String a p', String b s' => bool_decide (a = b) && startsWith s' p'
  | String _ _, EmptyString => false
  end.

(** The value of a hexadecimal digit. *)
Definition unhex (c : Ascii.ascii) : option N :=
  let n := Ascii.N_of_ascii c in
  if bool_decide (48 ≤ n ≤ 57)%N then Some (n - 48)%N
  else if bool_decide (97 ≤ n ≤ 102)%N then Some (n - 87)%N
  else if bool_decide (65 ≤ n ≤ 70)%N then Some (n - 55)%N
  else None.

(** [Buffer.from(text, 'hex')]: pairs of hexadecimal digits are decoded
    until the first pair that is not one; an odd last character is
    dropped. It never raises. *)
Fixpoint Buffer_from_hex (s : string) : Buffer :=
  match s with
  | String a (String b rest) =>
      match unhex a, unhex b with
      | Some hi, Some lo =>
          Ascii.byte_of_ascii (Ascii.ascii_of_N (16 * hi + lo)) :: Buffer_from_hex rest
      | _, _ => []
      end
  | _ => []
  end.

(** The value of a base64 character: the standard alphabet, with [-]
    and [_] of the URL-safe alphabet standing for [+] and [/]. *)
Definition unbase64 (c : Ascii.ascii) : option N :=
  let n := Ascii.N_of_ascii c in
  if bool_decide (65 ≤ n ≤ 90)%N then Some (n - 65)%N
  else if bool_decide (97 ≤ n ≤ 122)%N then Some (n - 71)%N
  else if bool_decide (48 ≤ n ≤ 57)%N then Some (n + 4)%N
  else if bool_decide (n = 43 ∨ n = 45)%N then Some 62%N
  else if bool_decide (n = 47 ∨ n = 95)%N then Some 63%N
  else None.

(** The 6-bit values that the decoder reads from a text: it stops at the
    first [=], and skips every other character that has no value. *)
Fixpoint base64_sextets (s : string) : list N :=
  match s with
  | EmptyString => []
  | String c s' =>
      if bool_decide (c = "="%char) then []
      else match unbase64 c with
           | Some n => n :: base64_sextets s'
           | None => base64_sextets s'
           end
  end.

(** Four 6-bit values make three bytes; of a last group of three or two,
    the whole bytes are kept; a single left-over value is dropped. *)
Fixpoint base64_bytes (l : list N) : Buffer :=
  let byte (n : N) := Ascii.byte_of_ascii (Ascii.ascii_of_N n) in
  match l with
  | a :: b :: c :: d :: l' =>
      byte (4 * a + b `div` 16)%N :: byte (16 * (b `mod` 16) + c `div` 4)%N
        :: byte (64 * (c `mod` 4) + d)%N :: base64_bytes l'
  | [a; b; c] => [byte (4 * a + b `div` 16)%N; byte (16 * (b `mod` 16) + c `div` 4)%N]
  | [a; b] => [byte (4 * a + b `div` 16)%N]
  | _ => []
  end.

(** [Buffer.from(text, 'base64')]. It never raises. *)
Definition Buffer_from_base64 (s : string) : Buffer := base64_bytes (base64_sextets s).

(** [crypto.timingSafeEqual(a, b)] raises a RangeError when the lengths
    differ. *)
Definition timingSafeEqual (a b : Buffer) : option bool :=
  if bool_decide (length a = length b) then Some (bool_decide (a = b)) else None.

(** [Array.prototype.sort(compare)] is a stable sort: an element goes in
    front of the first later element that does not compare below it. *)
Fixpoint sort_insert {A} (compare : A → A → Z) (x : A) (l : list A) : list A :=
  match l with
  | [] => [x]
  | y :: l' => if bool_decide (compare x y ≤ 0) then x :: l else y :: sort_insert compare x l'
  end.

Definition sort_defined {A} (compare : A → A → Z) (l : list A) : list A :=
  foldr (sort_insert compare) [] l.

(** The elements of an array that are not [undefined]. *)
Definition defined {A} (l : list (option A)) : list A := omap (λ o, o) l.

(** The [undefined] elements of the array are moved to its end without
    being passed to [compare]. *)
Definition sort {A} (compare : A → A → Z) (l : list (option A)) : list (option A) :=
  (Some <$> sort_defined compare (defined l)) ++ filter (λ o, o = None) l.

End JS.

(** ** ring-buffer.ts *)

Module RingBuffer.

(** What reading the [id] property of an item gives: a TypeError, for an
    item that is [null] or [undefined]; an integer, as the ids that the
    ingestors hand out are; or a value for which
    [typeof id === 'number' && id > afterId] is false whatever [afterId]
    is (no number, or NaN). *)
Inductive IdRead :=
  | IdRaises
  | IdNumber (n : Z)
  | IdOther.

Section ring_buffer.
Context {T : Type}.

(** [class RingBuffer<T>]: [buffer], [head] (next write position),
    [count] (number of stored items) and the constructor's [capacity]. *)
Record t := mk {
  buffer : list (option T);
  head : Z;
  count : Z;
  capacity : Z;
}.

Definition new (capacity : Z) : t :=
  {| buffer := JS.new_Array capacity; head := 0; count := 0; capacity := capacity |}.

Definition push (item : T) (rb : t) : t :=
  {| buffer := JS.array_set (buffer rb) (head rb) item;
     head := Z.rem (head rb + 1) (capacity rb);
     count := if bool_decide (count rb < capacity rb) then count rb + 1 else count rb;
     capacity := capacity rb |}.

(** The loop [for (i = 0; i < count; i++) result.push(buffer[(start + i) % capacity])].
    The result is what the JavaScript array holds: a slot that was never
    written shows up as [None]. *)
Definition toArray (rb : t) : list (option T) :=
  if bool_decide (count rb = 0) then []
  else
    let start := Z.rem (head rb - count rb + capacity rb) (capacity rb) in
    (λ i, JS.array_get (buffer rb) (Z.rem (start + i) (capacity rb)))
      <$> seqZ 0 (count rb).

Definition size (rb : t) : Z := count rb.

Definition clear (rb : t) : t :=
  {| buffer := JS.new_Array (capacity rb); head := 0; count := 0; capacity := capacity rb |}.

(** [since] reads the items' [id] field: [get_id x] says what
    [(x as Record<string, unknown>).id] gives for the item [x]. *)
Context (get_id : T → IdRead).

(** The filter callback of [since]. Reading [.id] raises a TypeError on
    an empty slot, which holds [undefined], and on an item that is
    [null] or [undefined]. *)
Definition since_callback (afterId : Z) (item : option T) : option bool :=
  x ← item;
  match get_id x with
  | IdRaises => None
  | IdNumber id => Some (bool_decide (id > afterId))
  | IdOther => Some false
  end.

(** [Array.prototype.filter] with a callback that may raise. *)
Fixpoint filter_callback {A} (f : A → option bool) (l : list A) : option (list A) :=
  match l with
  | [] => Some []
  | x :: l =>
      b ← f x;
      r ← filter_callback f l;
      Some (if b : bool then x :: r else r)
  end.

Definition since (afterId : Z) (rb : t) : option (list (option T)) :=
  filter_callback (since_callback afterId) (toArray rb).

End ring_buffer.
Arguments t : clear implicits.
End RingBuffer.

(** ** types.ts *)

Inductive IngestorType := websocket | webhook | poll.

Inductive IngestorState := starting | connected | reconnecting | stopped | error.

(** [interface IngestedEvent]; [data] is [unknown] in the source, its type
    is a parameter here. *)
Record IngestedEvent {Data : Type} := mkEvent {
  id : Z;
  receivedAt : string;
  source : string;
  eventType : string;
  data : Data;
}.
Arguments IngestedEvent : clear implicits.
Arguments mkEvent {Data}.

Definition DEFAULT_BUFFER_SIZE : Z := 200.

(** [interface IngestorStatus] *)
Record IngestorStatus := mkStatus {
  status_connection : string;
  status_type : IngestorType;
  status_state : IngestorState;
  bufferedEvents : Z;
  status_totalEventsReceived : Z;
  status_lastEventAt : option string;
  status_error : option string;
}.

(** ** base-ingestor *)

Module BaseIngestor.
Section base_ingestor.
Context {Data : Type}.

Record t := mk {
  connectionAlias : string;
  ingestorType : IngestorType;
  secrets : gmap string string;
  state : IngestorState;
  buffer : RingBuffer.t (IngestedEvent Data);
  totalEventsReceived : Z;
  lastEventAt : option string;
  errorMessage : option string;
}.

(** The constructor; [bufferSize] defaults to [DEFAULT_BUFFER_SIZE]. *)
Definition new (connectionAlias : string) (ingestorType : IngestorType)
    (secrets : gmap string string) (bufferSize : option Z) : t :=
  {| connectionAlias := connectionAlias;
     ingestorType := ingestorType;
     secrets := secrets;
     state := stopped;
     buffer := RingBuffer.new (default DEFAULT_BUFFER_SIZE bufferSize);
     totalEventsReceived := 0;
     lastEventAt := None;
     errorMessage := None |}.

(** [pushEvent(eventType, data)]. [now] is the reading of
    [new Date().toISOString()]. The result is the new state together with
    the event handed to [emit('event', event)]. *)
Definition pushEvent (eventType : string) (data : Data) (now : string) (ing : t)
    : t * IngestedEvent Data :=
  let event :=
    {| id := totalEventsReceived ing;
       receivedAt := now;
       source := connectionAlias ing;
       eventType := eventType;
       data := data |} in
  ({| connectionAlias := connectionAlias ing;
      ingestorType := ingestorType ing;
      secrets := secrets ing;
      state := state ing;
      buffer := RingBuffer.push event (buffer ing);
      totalEventsReceived := totalEventsReceived ing + 1;
      lastEventAt := Some (receivedAt event);
      errorMessage := errorMessage ing |},
   event).

(** [getEvents(afterId = -1)] *)
Definition getEvents (afterId : option Z) (ing : t)
    : option (list (option (IngestedEvent Data))) :=
  let afterId := default (-1) afterId in
  if bool_decide (afterId < 0) then Some (RingBuffer.toArray (buffer ing))
  else RingBuffer.since (λ e, RingBuffer.IdNumber (id e)) afterId (buffer ing).

Definition getStatus (ing : t) : IngestorStatus :=
  {| status_connection := connectionAlias ing;
     status_type := ingestorType ing;
     status_state := state ing;
     bufferedEvents := RingBuffer.size (buffer ing);
     status_totalEventsReceived := totalEventsReceived ing;
     status_lastEventAt := lastEventAt ing;
     status_error := if JS.truthy (errorMessage ing) then errorMessage ing else None |}.

(** The field updates that code outside [pushEvent] performs on an
    ingestor: [this.buffer.clear()], and the assignments to [state] and
    [errorMessage] made by the subclasses. *)
Definition clearBuffer (ing : t) : t :=
  {| connectionAlias := connectionAlias ing;
     ingestorType := ingestorType ing;
     secrets := secrets ing;
     state := state ing;
     buffer := RingBuffer.clear (buffer ing);
     totalEventsReceived := totalEventsReceived ing;
     lastEventAt := lastEventAt ing;
     errorMessage := errorMessage ing |}.

Definition setState (s : IngestorState) (err : option string) (ing : t) : t :=
  {| connectionAlias := connectionAlias ing;
     ingestorType := ingestorType ing;
     secrets := secrets ing;
     state := s;
     buffer := buffer ing;
     totalEventsReceived := totalEventsReceived ing;
     lastEventAt := lastEventAt ing;
     errorMessage := err |}.

End base_ingestor.
Arguments t : clear implicits.
End BaseIngestor.

(** ** webhook/webhook-ingestor.ts *)

(** A request header value: [string | string[]] ([undefined] is the
    absence of the key). *)
Inductive HeaderValue :=
  | HeaderOne (v : string)
  | HeaderMany (vs : list string).

(** [interface WebhookIngestorConfig] *)
Record WebhookIngestorConfig := mkWebhookConfig {
  path : string;
  signatureHeader : option string;
  signatureSecret : option string;
}.

(** The result of [extractGitHubHeaders], as [handleWebhook] uses it. *)
Record GitHubWebhookHeaders := mkGitHubHeaders {
  gh_event : string;
  gh_signature : option string;
  gh_deliveryId : option string;
}.

(** How a helper ends a call that it cannot serve. *)
Inductive Failure :=
  | Raises
  | ReturnsFalse.

(** The two helpers that webhook-ingestor.ts imports from its [types]
    module, whose bodies are not among the sources: [handleWebhook] is
    embedded over any implementation of them. The verifier is typed for a
    string secret. Handed a secret that is no string but a member of
    [Object.prototype], which cannot key an HMAC, it does not verify: the
    call raises or comes back false, [verifyGitHubSignature_inherited]
    says which, from the body, the signature and the name of the member. *)
Class GitHubTypes := {
  extractGitHubHeaders : gmap string HeaderValue → GitHubWebhookHeaders;
  verifyGitHubSignature : Buffer → string → string → bool;
  verifyGitHubSignature_inherited : Buffer → string → string → Failure;
}.

(** The return value of [handleWebhook]. *)
Record WebhookResult := mkResult {
  accepted : bool;
  reason : option string;
}.

Module GitHubWebhookIngestor.
Section github_webhook_ingestor.
Context `{json : JsonParser} `{utf8 : Utf8Decoder} `{gh : GitHubTypes}.

(** The payload that [handleWebhook] hands to [pushEvent]. *)
Record EventData := mkData {
  deliveryId : option string;
  event : string;
  payload : JSON;
}.

(** [class GitHubWebhookIngestor extends BaseIngestor] *)
Record t := mk {
  base : BaseIngestor.t EventData;
  webhookPath : string;
  signatureSecretName : option string;
  signatureHeaderName : option string;
  eventFilter : list string;
  webhookConfig : WebhookIngestorConfig;
}.

Definition new (connectionAlias : string) (secrets : gmap string string)
    (webhookConfig : WebhookIngestorConfig) (bufferSize : option Z) : t :=
  {| base := BaseIngestor.new connectionAlias webhook secrets bufferSize;
     webhookPath := path webhookConfig;
     signatureHeaderName := signatureHeader webhookConfig;
     signatureSecretName := signatureSecret webhookConfig;
     eventFilter := [];
     webhookConfig := webhookConfig |}.

Definition with_base (ing : t) (b : BaseIngestor.t EventData) : t :=
  {| base := b;
     webhookPath := webhookPath ing;
     signatureSecretName := signatureSecretName ing;
     signatureHeaderName := signatureHeaderName ing;
     eventFilter := eventFilter ing;
     webhookConfig := webhookConfig ing |}.

Definition start (ing : t) : t :=
  with_base ing (BaseIngestor.setState connected (BaseIngestor.errorMessage (base ing)) (base ing)).

Definition stop (ing : t) : t :=
  with_base ing (BaseIngestor.setState stopped (BaseIngestor.errorMessage (base ing)) (base ing)).

(** How step 2 of [handleWebhook] ends: with a [return], with an
    exception, or with control going on to step 3. *)
Inductive SignatureCheck :=
  | CheckReturns (r : WebhookResult)
  | CheckRaises
  | CheckPasses.

(** [!verifyGitHubSignature(rawBody, signature, secret)] and the [return]
    that it guards, for the [secret] read from [this.secrets]. *)
Definition verifySignature (rawBody : Buffer) (signature : string) (secret : JS.Property)
    : SignatureCheck :=
  let failed :=
    CheckReturns {| accepted := false; reason := Some "Signature verification failed" |} in
  match secret with
  | JS.OwnString secret =>
      if negb (verifyGitHubSignature rawBody signature secret) then failed else CheckPasses
  | JS.Inherited name =>
      match verifyGitHubSignature_inherited rawBody signature name with
      | Raises => CheckRaises
      | ReturnsFalse => failed
      end
  end.

(** Step 2 of [handleWebhook], the block guarded by
    [if (this.signatureSecretName && this.signatureHeader)]. *)
Definition checkSignature (ghHeaders : GitHubWebhookHeaders) (rawBody : Buffer) (ing : t)
    : SignatureCheck :=
  if JS.truthy (signatureSecretName ing) && JS.truthy (signatureHeaderName ing) then
    let secret :=
      name ← signatureSecretName ing; JS.get (BaseIngestor.secrets (base ing)) name in
    if negb (JS.truthy_property secret) then
      CheckReturns {| accepted := false; reason := Some "Signature secret not configured" |}
    else
      let signature := gh_signature ghHeaders in
      if negb (JS.truthy signature) then
        CheckReturns {| accepted := false; reason := Some "Missing signature header" |}
      else verifySignature rawBody (default "" signature) (default (JS.OwnString "") secret)
  else CheckPasses.

(** Steps 3 to 6 of [handleWebhook]: parse the body, filter on the event
    type, push the event. The first component is the answer, the third
    lists the events emitted to the observers. These steps do not raise:
    the exception of [JSON.parse] is caught. *)
Definition processBody (ghHeaders : GitHubWebhookHeaders) (rawBody : Buffer) (now : string)
    (ing : t) : option WebhookResult * t * list (IngestedEvent EventData) :=
  match JSON_parse (Buffer_toString rawBody) with
  | None => (Some {| accepted := false; reason := Some "Invalid JSON body" |}, ing, [])
  | Some payload =>
      let eventType := gh_event ghHeaders in
      if bool_decide (Z.of_nat (length (eventFilter ing)) > 0)
         && negb (bool_decide (eventType ∈ eventFilter ing)) then
        (Some {| accepted := true; reason := Some "Filtered out" |}, ing, [])
      else
        let '(b, ev) :=
          BaseIngestor.pushEvent eventType
            {| deliveryId := gh_deliveryId ghHeaders; event := eventType; payload := payload |}
            now (base ing) in
        (Some {| accepted := true; reason := None |}, with_base ing b, [ev])
  end.

(** [handleWebhook(headers, rawBody)]; [now] is the clock reading used if
    an event is pushed. The first component is the answer, [None] when an
    exception escapes the call: that happens in step 2 only, before the
    ingestor has been touched. *)
Definition handleWebhook (headers : gmap string HeaderValue) (rawBody : Buffer) (now : string)
    (ing : t) : option WebhookResult * t * list (IngestedEvent EventData) :=
  let ghHeaders := extractGitHubHeaders headers in
  match checkSignature ghHeaders rawBody ing with
  | CheckReturns rejection => (Some rejection, ing, [])
  | CheckRaises => (None, ing, [])
  | CheckPasses => processBody ghHeaders rawBody now ing
  end.

End github_webhook_ingestor.
End GitHubWebhookIngestor.

(** ** webhook/stripe-types.ts *)

Module Stripe.
Section stripe_types.
Context `{utf8 : Utf8Decoder} `{hmac : HmacSha256} `{num : NumberConversion}.

Definition DEFAULT_TIMESTAMP_TOLERANCE : number := JS.number_of_Z 300.

Record StripeSignatureComponents := mkComponents {
  timestamp : number;
  signatures : list string;
}.

(** The body of the loop [for (const part of parts)] of
    [parseStripeSignatureHeader], run over the remaining parts with the
    current values of [timestamp] and [signatures]. [None] is the
    [return null] inside the loop. *)
Fixpoint parse_parts (parts : list string) (timestamp : option number)
    (signatures : list string) : option (option number * list string) :=
  match parts with
  | [] => Some (timestamp, signatures)
  | part :: parts =>
      let kv := JS.split_limit "="%char 2 part in
      let key := kv !! 0%nat in
      let value := kv !! 1%nat in
      if negb (JS.truthy key) || negb (JS.truthy value) then
        parse_parts parts timestamp signatures
      else
        let trimmedKey := JS.trim (default "" key) in
        let trimmedValue := JS.trim (default "" value) in
        if bool_decide (trimmedKey = "t") then
          let parsed := Number trimmedValue in
          if JS.isNaN parsed then None
          else parse_parts parts (Some parsed) signatures
        else if bool_decide (trimmedKey = "v1") then
          parse_parts parts timestamp (signatures ++ [trimmedValue])
        else parse_parts parts timestamp signatures
  end.

(** [parseStripeSignatureHeader(header)]; [None] is [null]. *)
Definition parseStripeSignatureHeader (header : string) : option StripeSignatureComponents :=
  match parse_parts (JS.split ","%char header) None [] with
  | None => None
  | Some (timestamp, signatures) =>
      match timestamp with
      | None => None
      | Some t =>
          if bool_decide (length signatures = 0%nat) then None
          else Some {| timestamp := t; signatures := signatures |}
      end
  end.

Record Verdict := mkVerdict {
  valid : bool;
  verdict_reason : option string;
}.

(** One turn of the loop [for (const sig of signatures)]: the [try] block
    yields [Some true] when it returns [{ valid: true }], [Some false]
    when it falls through, and [None] when it raises (the [catch] then
    goes on to the next signature). *)
Definition try_signature (expectedBuf : Buffer) (sig : string) : option bool :=
  let sigBuf := JS.Buffer_from_hex sig in
  if bool_decide (length sigBuf = length expectedBuf) then JS.timingSafeEqual sigBuf expectedBuf
  else Some false.

Fixpoint any_signature (expectedBuf : Buffer) (signatures : list string) : bool :=
  match signatures with
  | [] => false
  | sig :: signatures =>
      match try_signature expectedBuf sig with
      | Some true => true
      | Some false | None => any_signature expectedBuf signatures
      end
  end.

(** [verifyStripeSignature(rawBody, signatureHeader, secret, tolerance)];
    [now] is the reading of [Math.floor(Date.now() / 1000)]. *)
Definition verifyStripeSignature (rawBody : Buffer) (signatureHeader : string)
    (secret : string) (tolerance : option number) (now : number) : Verdict :=
  let tolerance := default DEFAULT_TIMESTAMP_TOLERANCE tolerance in
  match parseStripeSignatureHeader signatureHeader with
  | None => {| valid := false; verdict_reason := Some "Malformed Stripe-Signature header" |}
  | Some parsed =>
      if JS.gt tolerance (JS.number_of_Z 0)
         && JS.gt (JS.Math_abs (JS.minus now (timestamp parsed))) tolerance
      then {| valid := false; verdict_reason := Some "Timestamp outside tolerance window" |}
      else
        let signedPayload :=
          Number_toString (timestamp parsed) +:+ "." +:+ Buffer_toString rawBody in
        let expectedSig := hmac_sha256_hex secret signedPayload in
        let expectedBuf := JS.Buffer_from_hex expectedSig in
        if any_signature expectedBuf (signatures parsed)
        then {| valid := true; verdict_reason := None |}
        else {| valid := false; verdict_reason := Some "Signature verification failed" |}
  end.

End stripe_types.
End Stripe.

(** ** webhook/trello-types.ts *)

Module Trello.
Section trello_types.
Context `{utf8 : Utf8Decoder} `{hmac : HmacSha1}.

(** [verifyTrelloSignature(rawBody, signatureHeader, secret, callbackUrl)].
    The [try] block evaluates to [None] when it raises, and the [catch]
    turns that into [false]. *)
Definition verifyTrelloSignature (rawBody : Buffer) (signatureHeader : string)
    (secret : string) (callbackUrl : string) : bool :=
  let content := Buffer_toString rawBody +:+ callbackUrl in
  let computedSig := hmac_sha1_base64 secret content in
  let attempt : option bool :=
    let receivedBuf := JS.Buffer_from_base64 signatureHeader in
    let computedBuf := JS.Buffer_from_base64 computedSig in
    if bool_decide (length receivedBuf = length computedBuf)
    then JS.timingSafeEqual receivedBuf computedBuf
    else Some false in
  default false attempt.

End trello_types.
End Trello.

(** ** manager *)

Module IngestorManager.
Section ingestor_manager.
Context `{collator : Collator} {Data : Type}.

(** [ingestors = new Map()], keyed by [callerAlias:connectionAlias]; a
    JavaScript [Map] iterates in insertion order, so it is the list of its
    entries. The [config] field is read by [startAll] only and is left
    out. *)
Record t := mk {
  ingestors : list (string * BaseIngestor.t Data);
}.

(** [Map.prototype.get] *)
Fixpoint Map_get (key : string) (entries : list (string * BaseIngestor.t Data))
    : option (BaseIngestor.t Data) :=
  match entries with
  | [] => None
  | (k, ingestor) :: entries =>
      if bool_decide (k = key) then Some ingestor else Map_get key entries
  end.

(** [getEvents(callerAlias, connectionAlias, afterId = -1)] *)
Definition getEvents (callerAlias connectionAlias : string) (afterId : option Z) (mgr : t)
    : option (list (option (IngestedEvent Data))) :=
  let afterId := default (-1) afterId in
  let key := callerAlias +:+ ":" +:+ connectionAlias in
  match Map_get key (ingestors mgr) with
  | None => Some []
  | Some ingestor => BaseIngestor.getEvents (Some afterId) ingestor
  end.

(** The loop [for (const [key, ingestor] of this.ingestors)] of
    [getAllEvents], run over the remaining entries with the current
    [events]. *)
Fixpoint collect (prefix : string) (afterId : Z)
    (entries : list (string * BaseIngestor.t Data))
    (events : list (option (IngestedEvent Data)))
    : option (list (option (IngestedEvent Data))) :=
  match entries with
  | [] => Some events
  | (key, ingestor) :: entries =>
      if JS.startsWith key prefix then
        more ← BaseIngestor.getEvents (Some afterId) ingestor;
        collect prefix afterId entries (events ++ more)
      else collect prefix afterId entries events
  end.

(** [getAllEvents(callerAlias, afterId = -1)] *)
Definition getAllEvents (callerAlias : string) (afterId : option Z) (mgr : t)
    : option (list (option (IngestedEvent Data))) :=
  let afterId := default (-1) afterId in
  let prefix := callerAlias +:+ ":" in
  events ← collect prefix afterId (ingestors mgr) [];
  Some (JS.sort (λ a b, localeCompare (receivedAt a) (receivedAt b)) events).

(** The loop of [getStatuses], run over the remaining entries with the
    current [statuses]. *)
Fixpoint collect_statuses (prefix : string) (entries : list (string * BaseIngestor.t Data))
    (statuses : list IngestorStatus) : list IngestorStatus :=
  match entries with
  | [] => statuses
  | (key, ingestor) :: entries =>
      if JS.startsWith key prefix then
        collect_statuses prefix entries (statuses ++ [BaseIngestor.getStatus ingestor])
      else collect_statuses prefix entries statuses
  end.

(** [getStatuses(callerAlias)] *)
Definition getStatuses (callerAlias : string) (mgr : t) : list IngestorStatus :=
  let prefix := callerAlias +:+ ":" in
  collect_statuses prefix (ingestors mgr) [].

End ingestor_manager.
Arguments t : clear implicits.
End IngestorManager.

(** ** manager: the override merge *)

Module MergeConfig.

(** [interface WebSocketIngestorConfig] of types.ts, with the id filters
    that the overrides can set ([guildIds], [channelIds], [userIds]: named
    by section 4.11 and by the manager tests). *)
Record WebSocketIngestorConfig := mkWebSocket {
  gatewayUrl : string;
  protocol : option string;
  ws_eventFilter : option (list string);
  ws_intents : option Z;
  ws_guildIds : option (list string);
  ws_channelIds : option (list string);
  ws_userIds : option (list string);
}.

(** [interface PollIngestorConfig] of types.ts, with the [responsePath]
    and [eventType] of section 4.10; [body] is the JSON text of the
    request body. *)
Record PollIngestorConfig := mkPoll {
  url : string;
  poll_intervalMs : Z;
  method : option string;
  body : option string;
  deduplicateBy : option string;
  responsePath : option string;
  poll_eventType : option string;
}.

(** Modelled from the spec: [interface IngestorOverrides] belongs to the
    shared config module, which is not among the sources; its fields are
    those that section 4.11 and the manager tests name, every one of them
    optional. *)
Record IngestorOverrides := mkOverrides {
  intents : option Z;
  eventFilter : option (list string);
  guildIds : option (list string);
  channelIds : option (list string);
  userIds : option (list string);
  intervalMs : option Z;
}.

(** JavaScript objects live in a store and refer to each other by
    address: an [IngestorConfig] object holds the addresses of its
    [websocket], [webhook] and [poll] blocks, so that a write to a block
    of the template would show in the template. *)
Abbreviation loc := positive.

Inductive object :=
  | ConfigObject (type : IngestorType) (websocket_ref webhook_ref poll_ref : option loc)
  | WebSocketObject (ws : WebSocketIngestorConfig)
  | WebhookObject (wh : WebhookIngestorConfig)
  | PollObject (p : PollIngestorConfig).

Abbreviation store := (gmap loc object).

Definition alloc (o : object) (σ : store) : loc * store :=
  let l := fresh (dom σ) in (l, <[l := o]> σ).

(** [overrides.f ?? template.f] *)
Definition override {A} (o : option A) (v : option A) : option A :=
  match o with Some _ => o | None => v end.

Definition apply_websocket (ov : IngestorOverrides) (ws : WebSocketIngestorConfig)
    : WebSocketIngestorConfig :=
  {| gatewayUrl := gatewayUrl ws;
     protocol := protocol ws;
     ws_eventFilter := override (eventFilter ov) (ws_eventFilter ws);
     ws_intents := override (intents ov) (ws_intents ws);
     ws_guildIds := override (guildIds ov) (ws_guildIds ws);
     ws_channelIds := override (channelIds ov) (ws_channelIds ws);
     ws_userIds := override (userIds ov) (ws_userIds ws) |}.

Definition apply_poll (ov : IngestorOverrides) (p : PollIngestorConfig) : PollIngestorConfig :=
  {| url := url p;
     poll_intervalMs := default (poll_intervalMs p) (intervalMs ov);
     method := method p;
     body := body p;
     deduplicateBy := deduplicateBy p;
     responsePath := responsePath p;
     poll_eventType := poll_eventType p |}.

(** The value of a config object with its blocks read through: what a
    deep comparison of two configs looks at. *)
Record ConfigValue := mkValue {
  cv_type : IngestorType;
  cv_websocket : option WebSocketIngestorConfig;
  cv_webhook : option WebhookIngestorConfig;
  cv_poll : option PollIngestorConfig;
}.

(** Reading an optional block through its address: [Some None] when the
    field is absent, [None] when the address holds no block of the kind. *)
Definition read_websocket (σ : store) (r : option loc)
    : option (option WebSocketIngestorConfig) :=
  match r with
  | None => Some None
  | Some l => match σ !! l with Some (WebSocketObject ws) => Some (Some ws) | _ => None end
  end.

Definition read_webhook (σ : store) (r : option loc)
    : option (option WebhookIngestorConfig) :=
  match r with
  | None => Some None
  | Some l => match σ !! l with Some (WebhookObject wh) => Some (Some wh) | _ => None end
  end.

Definition read_poll (σ : store) (r : option loc) : option (option PollIngestorConfig) :=
  match r with
  | None => Some None
  | Some l => match σ !! l with Some (PollObject p) => Some (Some p) | _ => None end
  end.

Definition read_config (σ : store) (l : loc) : option ConfigValue :=
  match σ !! l with
  | Some (ConfigObject type ws wh p) =>
      ws ← read_websocket σ ws;
      wh ← read_webhook σ wh;
      p ← read_poll σ p;
      Some {| cv_type := type; cv_websocket := ws; cv_webhook := wh; cv_poll := p |}
  | _ => None
  end.

(** Modelled from the spec: [IngestorManager.mergeIngestorConfig] is not in
    the manager source at hand, only its tests are. Following section 4.11
    (the override fields are merged into the template; the websocket fields
    only for a websocket template, [intervalMs] only for a poll template;
    the template is not mutated), the merge allocates a new config object,
    with a new [websocket] or [poll] block when the template's type calls
    for one, and writes to no existing object. [None] stands for a
    template address that holds no well-formed config. *)
Definition mergeIngestorConfig (template : loc) (ov : IngestorOverrides) (σ : store)
    : option (loc * store) :=
  match σ !! template, read_config σ template with
  | Some (ConfigObject type ws wh p), Some v =>
      match type, cv_websocket v, cv_poll v with
      | websocket, Some block, _ =>
          let '(l, σ1) := alloc (WebSocketObject (apply_websocket ov block)) σ in
          Some (alloc (ConfigObject type (Some l) wh p) σ1)
      | poll, _, Some block =>
          let '(l, σ1) := alloc (PollObject (apply_poll ov block)) σ in
          Some (alloc (ConfigObject type ws wh (Some l)) σ1)
      | _, _, _ => Some (alloc (ConfigObject type ws wh p) σ)
      end
  | _, _ => None
  end.

(** The merge on values: what the spec asks of the result. *)
Definition merge_value (ov : IngestorOverrides) (v : ConfigValue) : ConfigValue :=
  {| cv_type := cv_type v;
     cv_websocket :=
       match cv_type v with
       | websocket => apply_websocket ov <$> cv_websocket v
       | _ => cv_websocket v
       end;
     cv_webhook := cv_webhook v;
     cv_poll :=
       match cv_type v with
       | poll => apply_poll ov <$> cv_poll v
       | _ => cv_poll v
       end |}.

End MergeConfig.

(** ** The vocabulary of the specification *)

Section ring_buffer_vocabulary.
Context {T : Type}.

(** [represents c rb ps]: the buffer [rb] of capacity [c] is in the state
    reached by pushing the items [ps], oldest first, into an empty buffer:
    the write position and the count are those of [length ps] pushes, and
    each of the last [c] items, pushed as number [k], sits in slot
    [k mod c]. *)
Definition represents (c : Z) (rb : RingBuffer.t T) (ps : list T) : Prop :=
  RingBuffer.capacity rb = c ∧
  length (RingBuffer.buffer rb) = Z.to_nat c ∧
  RingBuffer.head rb = Z.of_nat (length ps) `mod` c ∧
  RingBuffer.count rb = Z.of_nat (length ps) `min` c ∧
  ∀ k : nat, Z.of_nat (length ps) - c ≤ Z.of_nat k < Z.of_nat (length ps) →
    JS.array_get (RingBuffer.buffer rb) (Z.of_nat k `mod` c) = ps !! k.

End ring_buffer_vocabulary.

Section base_ingestor_vocabulary.
Context {Data : Type}.

(** [trace ing log]: the state [ing] is reached from a newly constructed
    ingestor by calls of [pushEvent], clears of the ring buffer and
    changes of the lifecycle state, in any order; [log] lists the events
    that [pushEvent] has created on the way, first to last. *)
Inductive trace : BaseIngestor.t Data → list (IngestedEvent Data) → Prop :=
  | trace_new connectionAlias ingestorType secrets bufferSize :
      1 ≤ default DEFAULT_BUFFER_SIZE bufferSize →
      trace (BaseIngestor.new connectionAlias ingestorType secrets bufferSize) []
  | trace_pushEvent ing log eventType data now :
      trace ing log →
      trace (BaseIngestor.pushEvent eventType data now ing).1
            (log ++ [(BaseIngestor.pushEvent eventType data now ing).2])
  | trace_clear ing log :
      trace ing log → trace (BaseIngestor.clearBuffer ing) log
  | trace_setState ing log s err :
      trace ing log → trace (BaseIngestor.setState s err ing) log.

(** [history ing log live]: as [trace ing log], with [live] the events
    that [pushEvent] has created since the ring buffer was last cleared
    (since the construction, if it never was), first to last. *)
Inductive history
    : BaseIngestor.t Data → list (IngestedEvent Data) → list (IngestedEvent Data) → Prop :=
  | history_new connectionAlias ingestorType secrets bufferSize :
      1 ≤ default DEFAULT_BUFFER_SIZE bufferSize →
      history (BaseIngestor.new connectionAlias ingestorType secrets bufferSize) [] []
  | history_pushEvent ing log live eventType data now :
      history ing log live →
      history (BaseIngestor.pushEvent eventType data now ing).1
              (log ++ [(BaseIngestor.pushEvent eventType data now ing).2])
              (live ++ [(BaseIngestor.pushEvent eventType data now ing).2])
  | history_clear ing log live :
      history ing log live → history (BaseIngestor.clearBuffer ing) log []
  | history_setState ing log live s err :
      history ing log live → history (BaseIngestor.setState s err ing) log live.

(** Ids in ascending order. *)
Definition ascending (l : list (IngestedEvent Data)) : Prop :=
  StronglySorted (λ a b, id a < id b) l.

(** What [getEvents] yields on the buffered events [evs]. *)
Definition events_after (afterId : option Z) (evs : list (IngestedEvent Data))
    : list (IngestedEvent Data) :=
  if bool_decide (default (-1) afterId < 0) then evs
  else filter (λ e, id e > default (-1) afterId) evs.

End base_ingestor_vocabulary.

Section github_vocabulary.
Context `{json : JsonParser} `{utf8 : Utf8Decoder}.

(** Both configuration fields are set to a non-empty string. *)
Definition both_configured (ing : GitHubWebhookIngestor.t) : Prop :=
  JS.truthy (GitHubWebhookIngestor.signatureSecretName ing) = true ∧
  JS.truthy (GitHubWebhookIngestor.signatureHeaderName ing) = true.

(** [handleWebhook] skips the verification: whatever the helpers of
    [GitHubTypes] do, a request is handled as by steps 3 to 6 alone. *)
Definition skips_verification (ing : GitHubWebhookIngestor.t) : Prop :=
  ∀ (gh : GitHubTypes) headers rawBody now,
    GitHubWebhookIngestor.handleWebhook headers rawBody now ing
    = GitHubWebhookIngestor.processBody (extractGitHubHeaders headers) rawBody now ing.

End github_vocabulary.

Section stripe_vocabulary.
Context `{utf8 : Utf8Decoder} `{hmac : HmacSha256} `{num : NumberConversion}.

(** The [key=value] component that a part of the header stands for: the
    part needs a non-empty text on both sides of its first [=]. *)
Definition component (part : string) : option (string * string) :=
  match JS.split_limit "="%char 2 part with
  | [key; value] =>
      if bool_decide (key ≠ "" ∧ value ≠ "") then Some (JS.trim key, JS.trim value) else None
  | _ => None
  end.

Definition components (header : string) : list (string * string) :=
  omap component (JS.split ","%char header).

(** The values of the components with a given key, in header order. *)
Definition values_of (key : string) (cs : list (string * string)) : list string :=
  snd <$> filter (λ kv, kv.1 = key) cs.

(** The header has a [t=] component whose value is a number. *)
Definition has_numeric_t (header : string) : Prop :=
  ∃ v, v ∈ values_of "t" (components header) ∧ JS.isNaN (Number v) = false.

(** The header has a [v1=] component. *)
Definition has_v1 (header : string) : Prop :=
  values_of "v1" (components header) ≠ [].

(** The header has a [t=] component, and each one it has is a number. *)
Definition all_t_numeric (header : string) : Prop :=
  values_of "t" (components header) ≠ [] ∧
  Forall (λ v, JS.isNaN (Number v) = false) (values_of "t" (components header)).

(** The number of the last [t=] component. *)
Definition last_t (header : string) : option number :=
  Number <$> last (values_of "t" (components header)).

(** The timestamp [t] is outside the tolerance window at the clock
    reading [now]: the tolerance is greater than 0 and [|now - t|] is
    greater than the tolerance, as JavaScript compares numbers. *)
Definition outside_window (tolerance now t : number) : Prop :=
  JS.gt tolerance (JS.number_of_Z 0) = true ∧
  JS.gt (JS.Math_abs (JS.minus now t)) tolerance = true.

(** The signature that Stripe would have sent. *)
Definition expected_signature (rawBody : Buffer) (secret : string) (t : number) : string :=
  hmac_sha256_hex secret (Number_toString t +:+ "." +:+ Buffer_toString rawBody).

(** Some [v1] signature of the header decodes to the bytes of the expected
    one. *)
Definition some_v1_matches (rawBody : Buffer) (header secret : string) (t : number) : Prop :=
  ∃ sig, sig ∈ values_of "v1" (components header) ∧
    JS.Buffer_from_hex sig = JS.Buffer_from_hex (expected_signature rawBody secret t).

End stripe_vocabulary.

Section trello_vocabulary.
Context `{utf8 : Utf8Decoder} `{hmac : HmacSha1}.



End trello_vocabulary.

Section sort_vocabulary.
Context {A : Type} (compare : A → A → Z).

(** [x] may stand in front of [y]; [x] and [y] are tied. *)
Definition before (x y : A) : Prop := compare x y ≤ 0.
Definition tied (x y : A) : Prop := before x y ∧ before y x.

#[global] Instance tied_dec x y : Decision (tied x y) :=
  and_dec (decide (compare x y ≤ 0)) (decide (compare y x ≤ 0)).

End sort_vocabulary.

Section manager_vocabulary.
Context `{collator : Collator} {Data : Type}.

(** The comparator that [getAllEvents] hands to [sort]. *)
Definition by_receivedAt (a b : IngestedEvent Data) : Z :=
  localeCompare (receivedAt a) (receivedAt b).

(** The entries of the registry whose key starts with [callerAlias:]. *)
Definition entries_of (callerAlias : string) (mgr : IngestorManager.t Data)
    : list (string * BaseIngestor.t Data) :=
  filter (λ entry, JS.startsWith entry.1 (callerAlias +:+ ":") = true)
    (IngestorManager.ingestors mgr).

(** The events that [getEvents(afterId)] returns for one ingestor. *)
Definition events_of (afterId : option Z) (ing : BaseIngestor.t Data)
    : list (IngestedEvent Data) :=
  JS.defined (default [] (BaseIngestor.getEvents (Some (default (-1) afterId)) ing)).

(** The merge: the events of the caller's ingestors, appended in registry
    order. *)
Definition merged (callerAlias : string) (afterId : option Z) (mgr : IngestorManager.t Data)
    : list (IngestedEvent Data) :=
  entry ← entries_of callerAlias mgr; events_of afterId entry.2.

(** Every ingestor of the registry is in a state reached from its
    construction. *)
Definition running (mgr : IngestorManager.t Data) : Prop :=
  Forall (λ entry, ∃ log, trace entry.2 log) (IngestorManager.ingestors mgr).

End manager_vocabulary.

Section ring_buffer_calls.
Context {T : Type}.

(** The calls that change a ring buffer, and a run of them. *)
Inductive ring_call :=
  | RingPush (item : T)
  | RingClear.

Definition ring_step (rb : RingBuffer.t T) (call : ring_call) : RingBuffer.t T :=
  match call with
  | RingPush item => RingBuffer.push item rb
  | RingClear => RingBuffer.clear rb
  end.

Definition ring_run (calls : list ring_call) (rb : RingBuffer.t T) : RingBuffer.t T :=
  foldl ring_step rb calls.

(** The items pushed after the last clear of a run, oldest first. *)
Definition pushed_since_clear (calls : list ring_call) : list T :=
  foldl (λ items call,
           match call with
           | RingPush item => items ++ [item]
           | RingClear => []
           end) [] calls.

(** The last [c] items of a list. *)
Definition last_items (c : Z) (items : list T) : list T :=
  drop (Z.to_nat (0 `max` (Z.of_nat (length items) - c))) items.

(** The item has a numeric [id], greater than [afterId]. *)
Definition has_id_after (get_id : T → RingBuffer.IdRead) (afterId : Z) (item : T) : Prop :=
  match get_id item with
  | RingBuffer.IdNumber n => n > afterId
  | _ => False
  end.

#[global] Instance has_id_after_dec get_id afterId item :
  Decision (has_id_after get_id afterId item) :=
  match get_id item as r
    return Decision (match r with RingBuffer.IdNumber n => n > afterId | _ => False end) with
  | RingBuffer.IdNumber n => decide (n > afterId)
  | _ => right (λ H, H)
  end.

(** Reading the [id] of the item does not raise: the item is neither
    [null] nor [undefined]. *)
Definition readable (get_id : T → RingBuffer.IdRead) (item : T) : Prop :=
  get_id item ≠ RingBuffer.IdRaises.

#[global] Instance readable_dec get_id item : Decision (readable get_id item) :=
  match get_id item as r return Decision (r ≠ RingBuffer.IdRaises) with
  | RingBuffer.IdRaises => right (λ H, H eq_refl)
  | RingBuffer.IdNumber n => left (λ H, eq_ind (RingBuffer.IdNumber n)
      (λ r, match r with RingBuffer.IdNumber _ => True | _ => False end) I _ H)
  | RingBuffer.IdOther => left (λ H, eq_ind RingBuffer.IdOther
      (λ r, match r with RingBuffer.IdOther => True | _ => False end) I _ H)
  end.

End ring_buffer_calls.
Arguments ring_call : clear implicits.

Section base_ingestor_calls.
Context {Data : Type}.

(** A run of [pushEvent] calls, one for each [(eventType, data, now)] of
    [inputs]: the ingestor it leaves and the events it has emitted. *)
Definition pushAll (inputs : list (string * Data * string)) (ing : BaseIngestor.t Data)
    : BaseIngestor.t Data * list (IngestedEvent Data) :=
  foldl (λ acc input,
           let r := BaseIngestor.pushEvent input.1.1 input.1.2 input.2 acc.1 in
           (r.1, acc.2 ++ [r.2]))
    (ing, []) inputs.

End base_ingestor_calls.

Section github_calls.
Context `{json : JsonParser} `{utf8 : Utf8Decoder} `{gh : GitHubTypes}.

(** The states of a GitHub webhook ingestor: what the constructor builds,
    and what [start], [stop] and [handleWebhook] make of such a state. *)
Inductive github_reachable : GitHubWebhookIngestor.t → Prop :=
  | github_new connectionAlias secrets webhookConfig bufferSize :
      1 ≤ default DEFAULT_BUFFER_SIZE bufferSize →
      github_reachable
        (GitHubWebhookIngestor.new connectionAlias secrets webhookConfig bufferSize)
  | github_start ing :
      github_reachable ing → github_reachable (GitHubWebhookIngestor.start ing)
  | github_stop ing :
      github_reachable ing → github_reachable (GitHubWebhookIngestor.stop ing)
  | github_handleWebhook ing headers rawBody now :
      github_reachable ing →
      github_reachable (GitHubWebhookIngestor.handleWebhook headers rawBody now ing).1.2.

(** The request passes the signature check of an ingestor that has both
    fields configured. *)
Definition signature_verified (ing : GitHubWebhookIngestor.t)
    (headers : gmap string HeaderValue) (rawBody : Buffer) : Prop :=
  ∃ name secret signature,
    GitHubWebhookIngestor.signatureSecretName ing = Some name ∧
    BaseIngestor.secrets (GitHubWebhookIngestor.base ing) !! name = Some secret ∧
    gh_signature (extractGitHubHeaders headers) = Some signature ∧
    verifyGitHubSignature rawBody signature secret = true.

End github_calls.

Section text_vocabulary.

(** The character occurs in the text. *)
Fixpoint contains (c : ascii) (s : string) : bool :=
  match s with
  | EmptyString => false
  | String a s' => bool_decide (a = c) || contains c s'
  end.



(** The registry key of a caller's connection. *)
Definition registry_key (callerAlias connectionAlias : string) : string :=
  callerAlias +:+ ":" +:+ connectionAlias.

End text_vocabulary.

Section manager_calls.
Context {Data : Type}.

(** The registry that holds the given ingestors, each under the key of
    its caller and connection. *)
Definition registry (l : list (string * string * BaseIngestor.t Data))
    : IngestorManager.t Data :=
  {| IngestorManager.ingestors := (λ r, (registry_key r.1.1 r.1.2, r.2)) <$> l |}.

End manager_calls.

(** ** A stand-in runtime for the worked examples

    The worked examples run the embedding on concrete inputs, for which
    the built-ins need values. The instances below are simple stand-ins;
    the theorems hold for every instance. *)

Module Demo.

(** Texts that open with a brace parse, to themselves; the rest is
    rejected. *)
Definition json : JsonParser :=
  {| JSON := string;
     JSON_parse := λ text, if JS.startsWith text "{" then Some text else None |}.

(** Exact on ASCII bodies. *)
Definition utf8 : Utf8Decoder :=
  {| Buffer_toString := String.string_of_list_byte |}.

Definition hex_digit (n : N) : ascii :=
  ascii_of_N (if bool_decide (n < 10)%N then 48 + n else 87 + n).

Fixpoint checksum (s : string) : N :=
  match s with
  | EmptyString => 0
  | String c s' => (N_of_ascii c + checksum s') `mod` 256
  end%N.

(** A keyed one-byte checksum in place of HMAC-SHA256. *)
Definition hmac : HmacSha256 :=
  {| hmac_sha256_hex := λ key text,
       let n := ((checksum key + checksum text) `mod` 256)%N in
       String (hex_digit (n `div` 16)) (String (hex_digit (n `mod` 16)) EmptyString) |}.

(** A keyed one-byte checksum, as base64 text, in place of HMAC-SHA1. *)
Definition base64_digit (n : N) : ascii :=
  ascii_of_N (if bool_decide (n < 26)%N then 65 + n
              else if bool_decide (n < 52)%N then 71 + n
              else if bool_decide (n < 62)%N then n - 4
              else if bool_decide (n = 62)%N then 43 else 47).

Definition hmac1 : HmacSha1 :=
  {| hmac_sha1_base64 := λ key text,
       let n := ((checksum key + checksum text) `mod` 256)%N in
       String (base64_digit (n `div` 4)) (String (base64_digit (16 * (n `mod` 4))) "==") |}.

(** Decimal digits with at most one point among them: the digits read as
    an integer, and the power of ten that the point divides it by. [None]
    for any other text. *)
Fixpoint decimal (s : string) (acc : Z) (scale : option Z) (seen : bool) : option (Z * Z) :=
  match s with
  | EmptyString => if seen then Some (acc, default 1 scale) else None
  | String c s' =>
      let n := N_of_ascii c in
      if bool_decide (48 ≤ n ≤ 57)%N then
        decimal s' (10 * acc + (Z.of_N n - 48)) ((λ k, 10 * k) <$> scale) true
      else if bool_decide (n = 46)%N then
        match scale with
        | None => decimal s' acc (Some 1) seen
        | Some _ => None
        end
      else None
  end.

(** The decimal expansion of the fraction [frac / 2^k]: the [k] digits
    of [frac * 5^k], without the zeros at their end. *)
Fixpoint drop_zeros (s : string) : string :=
  match s with
  | String "0" s' => drop_zeros s'
  | _ => s
  end.

Definition fraction_digits (frac k : Z) : string :=
  let digits := pretty (frac * 5 ^ k) in
  let padded := String.concat "" (replicate (Z.to_nat k - String.length digits) "0") +:+ digits in
  String.rev (drop_zeros (String.rev padded)).

(** [Number] and the conversion to text, on the numbers that the
    examples use. [read_number] reads decimal digits with an optional point
    (the empty text is 0) and takes any other text for NaN: it reads no
    sign, exponent or other notation. The conversion to text writes out
    the exact decimal expansion, which is what JavaScript prints for the
    integers below 2^53 and for fractions whose expansion is as short as
    1700000000.5. *)
Definition read_number (text : string) : number :=
  if bool_decide (text = "") then JS.number_of_Z 0
  else match decimal text 0 None false with
       | Some (n, d) => SpecFloat.SFdiv JS.prec JS.emax (JS.number_of_Z n) (JS.number_of_Z d)
       | None => SpecFloat.S754_nan
       end.

Definition write_number (x : number) : string :=
  match x with
  | SpecFloat.S754_nan => "NaN"
  | SpecFloat.S754_infinity s => if s then "-Infinity" else "Infinity"
  | SpecFloat.S754_zero _ => "0"
  | SpecFloat.S754_finite s m e =>
      (if s then "-" else "") +:+
      (if bool_decide (0 ≤ e) then pretty (Z.pos m * 2 ^ e)
       else
         let q := 2 ^ (- e) in
         if bool_decide (Z.pos m `mod` q = 0) then pretty (Z.pos m `div` q)
         else pretty (Z.pos m `div` q) +:+ "." +:+ fraction_digits (Z.pos m `mod` q) (- e))
  end.

Definition num : NumberConversion :=
  {| Number := read_number; Number_toString := write_number |}.

(** Comparison by code units. *)
Definition collator : Collator :=
  {| localeCompare := λ a b,
       match OrderedTypeEx.String_as_OT.cmp a b with Lt => -1 | Eq => 0 | Gt => 1 end |}.

Definition header (name : string) (headers : gmap string HeaderValue) : option string :=
  match headers !! name with
  | Some (HeaderOne v) => Some v
  | _ => None
  end.

(** Header extraction by name, and a verifier that accepts no signature
    at all; with a secret that is no string, it raises. *)
Definition reject_all : GitHubTypes :=
  {| extractGitHubHeaders := λ headers,
       {| gh_event := default "unknown" (header "x-github-event" headers);
          gh_signature := header "x-hub-signature-256" headers;
          gh_deliveryId := header "x-github-delivery" headers |};
     verifyGitHubSignature := λ _ _ _, false;
     verifyGitHubSignature_inherited := λ _ _ _, Raises |}.

(** A verifier that accepts [sha256=] followed by the keyed checksum of
    the body. *)
Definition accept_signed : GitHubTypes :=
  {| extractGitHubHeaders := extractGitHubHeaders (GitHubTypes := reject_all);
     verifyGitHubSignature := λ rawBody signature secret,
       bool_decide (signature
                    = "sha256=" +:+ hmac_sha256_hex (HmacSha256 := hmac) secret
                                      (Buffer_toString (Utf8Decoder := utf8) rawBody));
     verifyGitHubSignature_inherited := λ _ _ _, Raises |}.

Definition both_fields : WebhookIngestorConfig :=
  {| path := "github";
     signatureHeader := Some "X-Hub-Signature-256";
     signatureSecret := Some "GITHUB_WEBHOOK_SECRET" |}.


Definition header_only : WebhookIngestorConfig :=
  {| path := "github";
     signatureHeader := Some "X-Hub-Signature-256";
     signatureSecret := None |}.

Definition body (text : string) : Buffer := String.list_byte_of_string text.

(** Ingestors with a buffer of two events and a registry of three. *)
Definition pushed (events : list (string * string)) (ing : BaseIngestor.t string)
    : BaseIngestor.t string :=
  foldl (λ ing ev, (BaseIngestor.pushEvent ev.1 ev.1 ev.2 ing).1) ing events.

Definition github_ingestor : BaseIngestor.t string :=
  pushed [("push", "2026-01-01T00:00:01.000Z");
          ("issues", "2026-01-01T00:00:03.000Z");
          ("push", "2026-01-01T00:00:05.000Z")]
    (BaseIngestor.new "github" webhook ∅ (Some 2)).

Definition stripe_ingestor : BaseIngestor.t string :=
  pushed [("invoice.paid", "2026-01-01T00:00:03.000Z");
          ("charge.failed", "2026-01-01T00:00:04.000Z")]
    (BaseIngestor.new "stripe" webhook ∅ None).

Definition manager : IngestorManager.t string :=
  {| IngestorManager.ingestors :=
       [("agent:github", github_ingestor);
        ("other:github", github_ingestor);
        ("agent:stripe", stripe_ingestor)] |}.

(** The connections behind the registry: caller, connection, ingestor. *)
Definition connections : list (string * string * BaseIngestor.t string) :=
  [("agent", "github", github_ingestor);
   ("other", "github", github_ingestor);
   ("agent", "stripe", stripe_ingestor)].

(** A store with the Discord template of the manager tests at address 1
    (its [websocket] block at 2) and a poll template at 3 (block at 4). *)
Definition discord_block : MergeConfig.WebSocketIngestorConfig :=
  {| MergeConfig.gatewayUrl := "wss://gateway.discord.gg/?v=10&encoding=json";
     MergeConfig.protocol := Some "discord";
     MergeConfig.ws_eventFilter := None;
     MergeConfig.ws_intents := Some 3276799;
     MergeConfig.ws_guildIds := None;
     MergeConfig.ws_channelIds := None;
     MergeConfig.ws_userIds := None |}.

Definition poll_block : MergeConfig.PollIngestorConfig :=
  {| MergeConfig.url := "https://api.example.com/items";
     MergeConfig.poll_intervalMs := 60000;
     MergeConfig.method := Some "POST";
     MergeConfig.body := Some "{ query: 'test' }";
     MergeConfig.deduplicateBy := Some "id";
     MergeConfig.responsePath := Some "results";
     MergeConfig.poll_eventType := Some "item_updated" |}.

Definition store : gmap positive MergeConfig.object :=
  {[ 1%positive := MergeConfig.ConfigObject websocket (Some 2%positive) None None;
     2%positive := MergeConfig.WebSocketObject discord_block;
     3%positive := MergeConfig.ConfigObject poll None None (Some 4%positive);
     4%positive := MergeConfig.PollObject poll_block ]}.

Definition discord_value : MergeConfig.ConfigValue :=
  {| MergeConfig.cv_type := websocket;
     MergeConfig.cv_websocket := Some discord_block;
     MergeConfig.cv_webhook := None;
     MergeConfig.cv_poll := None |}.

Definition overrides : MergeConfig.IngestorOverrides :=
  {| MergeConfig.intents := Some 4609;
     MergeConfig.eventFilter := None;
     MergeConfig.guildIds := Some ["123"];
     MergeConfig.channelIds := None;
     MergeConfig.userIds := None;
     MergeConfig.intervalMs := None |}.

End Demo.

(** * Part II: the properties *)

(** ** The ring buffer *)

Section ring_buffer_spec.
Context {T : Type}.
Implicit Types (rb : RingBuffer.t T) (ps : list T) (c : Z).

Lemma array_get_set_eq {A} (arr : list (option A)) (i : Z) (x : A) :
  0 ≤ i < Z.of_nat (length arr) → JS.array_get (JS.array_set arr i x) i = Some x.
Proof.
  intros Hi. unfold JS.array_get, JS.array_set.
  rewrite !bool_decide_eq_false_2 by lia. rewrite bool_decide_eq_true_2 by lia.
  rewrite list_lookup_insert_eq by lia. done.
Qed.

Lemma array_get_set_ne {A} (arr : list (option A)) (i j : Z) (x : A) :
  0 ≤ i < Z.of_nat (length arr) → 0 ≤ j → i ≠ j →
  JS.array_get (JS.array_set arr i x) j = JS.array_get arr j.
Proof.
  intros Hi Hj Hne. unfold JS.array_get, JS.array_set.
  rewrite !bool_decide_eq_false_2 by lia. rewrite bool_decide_eq_true_2 by lia.
  rewrite list_lookup_insert_ne by lia. done.
Qed.

Lemma length_array_set_inside {A} (arr : list (option A)) (i : Z) (x : A) :
  0 ≤ i < Z.of_nat (length arr) → length (JS.array_set arr i x) = length arr.
Proof.
  intros Hi. unfold JS.array_set.
  rewrite bool_decide_eq_false_2 by lia. rewrite bool_decide_eq_true_2 by lia.
  apply length_insert.
Qed.

Lemma mod_distinct (c n k : Z) : 0 < c → 0 < n - k < c → k `mod` c ≠ n `mod` c.
Proof.
  intros Hc Hnk Heq.
  assert ((n - k) `mod` c = 0) as H0.
  { rewrite Zminus_mod, Heq, Z.sub_diag. by apply Z.mod_0_l; lia. }
  rewrite Z.mod_small in H0 by lia. lia.
Qed.

Lemma represents_new c : 1 ≤ c → represents (T := T) c (RingBuffer.new c) [].
Proof.
  intros Hc. repeat split; simpl.
  - unfold JS.new_Array. by rewrite length_replicate.
  - lia.
  - intros k Hk. lia.
Qed.

Lemma represents_clear c rb ps :
  1 ≤ c → represents c rb ps → represents c (RingBuffer.clear rb) [].
Proof.
  intros Hc (Hcap & _). unfold RingBuffer.clear. rewrite Hcap. by apply represents_new.
Qed.

Lemma represents_push c rb ps x :
  1 ≤ c → represents c rb ps → represents c (RingBuffer.push x rb) (ps ++ [x]).
Proof.
  intros Hc (Hcap & Hlen & Hhead & Hcount & Hslots).
  assert (0 ≤ RingBuffer.head rb < Z.of_nat (length (RingBuffer.buffer rb))) as Hin.
  { rewrite Hhead, Hlen, Z2Nat.id by lia. apply Z.mod_pos_bound. lia. }
  unfold represents, RingBuffer.push; simpl.
  rewrite Hcap, length_app; simpl. repeat split.
  - by rewrite length_array_set_inside.
  - rewrite Z.rem_mod_nonneg by lia. rewrite Hhead, Zplus_mod_idemp_l. f_equal. lia.
  - rewrite Hcount. case_bool_decide; lia.
  - intros k Hk.
    destruct (decide (k = length ps)) as [->|Hne].
    + rewrite <-Hhead, array_get_set_eq by done.
      by rewrite lookup_app_r, Nat.sub_diag by lia.
    + rewrite array_get_set_ne; [|done|apply Z.mod_pos_bound; lia|].
      * rewrite Hslots by lia. rewrite lookup_app_l by lia. done.
      * rewrite Hhead. apply not_eq_sym, mod_distinct; lia.
Qed.

Lemma represents_foldl c ps :
  1 ≤ c → represents c (foldl (λ rb p, RingBuffer.push p rb) (RingBuffer.new c) ps) ps.
Proof.
  intros Hc. induction ps as [|p ps IH] using rev_ind.
  - by apply represents_new.
  - rewrite foldl_app. simpl. by apply represents_push.
Qed.

Lemma toArray_represents c rb ps :
  1 ≤ c → represents c rb ps →
  RingBuffer.toArray rb = Some <$> drop (length ps - Z.to_nat c) ps.
Proof.
  intros Hc (Hcap & Hlen & Hhead & Hcount & Hslots).
  unfold RingBuffer.toArray. rewrite Hcap, Hcount, Hhead.
  case_bool_decide as Hz.
  - assert (length ps = 0%nat) as ->%nil_length_inv by (clear -Hc Hz; lia). done.
  - remember (Z.of_nat (length ps)) as n eqn:Hn.
    remember (n `min` c) as m eqn:Hm.
    assert (0 ≤ n `mod` c < c) as Hmod by (apply Z.mod_pos_bound; lia).
    assert (0 < m ≤ c ∧ m ≤ n) as Hmb by (clear -Hc Hz Hm Hn; lia).
    apply list_eq. intros j.
    rewrite !list_lookup_fmap, lookup_drop.
    destruct (decide (Z.of_nat j < m)) as [Hj|Hj].
    + rewrite lookup_seqZ_lt by done. simpl.
      rewrite (Z.rem_mod_nonneg (n `mod` c - m + c)) by (clear -Hmod Hmb; lia).
      assert (0 ≤ (n `mod` c - m + c) `mod` c < c) as Hmod' by (apply Z.mod_pos_bound; lia).
      rewrite Z.rem_mod_nonneg by (clear -Hmod' Hc; lia).
      rewrite Z.add_mod_idemp_l by lia.
      replace (n `mod` c - m + c + (0 + Z.of_nat j))
        with (n `mod` c + (c - m + Z.of_nat j)) by lia.
      rewrite Z.add_mod_idemp_l by lia.
      replace (n + (c - m + Z.of_nat j))
        with (Z.of_nat (length ps - Z.to_nat c + j) + 1 * c) by (clear -Hc Hm Hn Hj Hmb; lia).
      rewrite Z_mod_plus_full.
      rewrite Hslots by (clear -Hc Hm Hn Hj Hmb; lia).
      destruct (lookup_lt_is_Some_2 ps (length ps - Z.to_nat c + j)) as [p Hp];
        [clear -Hc Hm Hn Hj Hmb; lia|].
      by rewrite Hp.
    + rewrite lookup_seqZ_ge by lia. simpl.
      rewrite lookup_ge_None_2 by (clear -Hc Hm Hn Hj Hz; lia). done.
Qed.

Lemma toArray_push_full c rb ps x :
  1 ≤ c → represents c rb ps → RingBuffer.size rb = c →
  RingBuffer.toArray (RingBuffer.push x rb) = drop 1 (RingBuffer.toArray rb) ++ [Some x].
Proof.
  intros Hc Hrep Hfull.
  rewrite (toArray_represents c _ (ps ++ [x]) Hc (represents_push c rb ps x Hc Hrep)).
  rewrite (toArray_represents c rb ps Hc Hrep).
  destruct Hrep as (_ & _ & _ & Hcount & _). unfold RingBuffer.size in Hfull.
  rewrite length_app. simpl.
  rewrite <-fmap_drop, drop_drop, drop_app_le by lia. rewrite fmap_app. simpl.
  do 3 f_equal. lia.
Qed.

Lemma oldest_at_head c rb ps :
  1 ≤ c → represents c rb ps → RingBuffer.size rb = c →
  RingBuffer.toArray rb !! 0%nat
  = Some (JS.array_get (RingBuffer.buffer rb) (RingBuffer.head rb)).
Proof.
  intros Hc Hrep Hfull. rewrite (toArray_represents c rb ps Hc Hrep).
  destruct Hrep as (_ & _ & Hhead & Hcount & Hslots). unfold RingBuffer.size in Hfull.
  rewrite list_lookup_fmap, lookup_drop, Nat.add_0_r.
  rewrite Hhead, <-(Z_mod_plus_full _ (-1) c).
  replace (Z.of_nat (length ps) + -1 * c) with (Z.of_nat (length ps - Z.to_nat c)) by lia.
  rewrite Hslots by lia.
  destruct (lookup_lt_is_Some_2 ps (length ps - Z.to_nat c)) as [p Hp]; [lia|].
  by rewrite Hp.
Qed.

(** C3. For a capacity [c >= 1] and pushes [ps = p0 .. pn] into a new
    ring buffer: [toArray()] is [p_{max(0, n+1-c)} .. p_n], oldest first;
    [size] is [min(n+1, c)], hence at most [c]; every push moves the write
    position to [(head + 1) mod c] and writes the slot at [head]; when the
    buffer is at capacity that slot holds the oldest item, which the push
    replaces, the other items keeping their order. *)
Theorem ring_buffer_keeps_last_pushes c ps :
  1 ≤ c →
  let rb := foldl (λ rb p, RingBuffer.push p rb) (RingBuffer.new c) ps in
  RingBuffer.toArray rb
    = Some <$> drop (Z.to_nat (0 `max` (Z.of_nat (length ps) - c))) ps ∧
  RingBuffer.size rb = Z.of_nat (length ps) `min` c ∧
  RingBuffer.size rb ≤ c ∧
  ∀ x,
    let rb' := RingBuffer.push x rb in
    RingBuffer.head rb' = (RingBuffer.head rb + 1) `mod` c ∧
    RingBuffer.buffer rb' = <[Z.to_nat (RingBuffer.head rb) := Some x]> (RingBuffer.buffer rb) ∧
    (RingBuffer.size rb = c →
       RingBuffer.toArray rb !! 0%nat
         = Some (JS.array_get (RingBuffer.buffer rb) (RingBuffer.head rb)) ∧
       RingBuffer.toArray rb' = drop 1 (RingBuffer.toArray rb) ++ [Some x] ∧
       RingBuffer.size rb' = c).
Proof.
  intros Hc rb.
  pose proof (represents_foldl c ps Hc) as Hrep. fold rb in Hrep.
  pose proof Hrep as (Hcap & Hlen & Hhead & Hcount & Hslots).
  assert (0 ≤ RingBuffer.head rb < c) as Hin.
  { rewrite Hhead. apply Z.mod_pos_bound. lia. }
  split; [|split; [|split]].
  - rewrite (toArray_represents c rb ps Hc Hrep). do 2 f_equal. lia.
  - done.
  - unfold RingBuffer.size. lia.
  - intros x rb'. split; [|split].
    + simpl. rewrite Hcap. apply Z.rem_mod_nonneg; lia.
    + simpl. unfold JS.array_set.
      rewrite bool_decide_eq_false_2 by lia. rewrite bool_decide_eq_true_2 by lia. done.
    + intros Hfull. split; [|split].
      * by apply (oldest_at_head c rb ps).
      * by apply (toArray_push_full c rb ps).
      * unfold RingBuffer.size in *. simpl. rewrite Hcap.
        rewrite bool_decide_eq_false_2 by lia. done.
Qed.

End ring_buffer_spec.

Lemma ring_buffer_keeps_last_pushes_witness :
  1 ≤ 2 ∧
  RingBuffer.toArray (foldl (λ rb p, RingBuffer.push p rb) (RingBuffer.new 2) [10; 20; 30])
  = [Some 20; Some 30].
Proof.
  split; [lia|].
  exact (proj1 (ring_buffer_keeps_last_pushes 2 [10; 20; 30] ltac:(lia))).
Defined.

Example ring_evicts_oldest :
  RingBuffer.toArray (foldl (λ rb x, RingBuffer.push x rb) (RingBuffer.new 3) [1; 2; 3; 4])
  = [Some 2; Some 3; Some 4].
Proof. reflexivity. Qed.

Example ring_wraps_around_five_times :
  RingBuffer.toArray (foldl (λ rb x, RingBuffer.push x rb) (RingBuffer.new 2) (seqZ 0 10))
  = [Some 8; Some 9].
Proof. reflexivity. Qed.

Example ring_since_skips_ids_that_are_no_numbers :
  RingBuffer.since (λ _ : string, RingBuffer.IdOther) 0
    (foldl (λ rb x, RingBuffer.push x rb) (RingBuffer.new 3) ["a"; "b"])
  = Some [].
Proof. reflexivity. Qed.

Example ring_of_capacity_one :
  RingBuffer.toArray (foldl (λ rb x, RingBuffer.push x rb) (RingBuffer.new 1) ["a"; "b"])
  = [Some "b"].
Proof. reflexivity. Qed.

Example ring_clear_then_push :
  let rb := foldl (λ rb x, RingBuffer.push x rb) (RingBuffer.new 5) [1; 2; 3] in
  RingBuffer.size (RingBuffer.clear rb) = 0 ∧
  RingBuffer.toArray (RingBuffer.clear rb) = [] ∧
  RingBuffer.toArray (RingBuffer.push 10 (RingBuffer.clear rb)) = [Some 10].
Proof. by vm_compute. Qed.

(** ** The base ingestor *)

Section base_ingestor_spec.
Context {Data : Type}.
Implicit Types (ing : BaseIngestor.t Data) (log l : list (IngestedEvent Data)).

Lemma ascending_filter (P : IngestedEvent Data → Prop) `{!∀ e, Decision (P e)} l :
  ascending l → ascending (filter P l).
Proof.
  induction 1 as [|e l Hl IH Hall]; [constructor|].
  rewrite filter_cons. case_decide; [|done].
  constructor; [done|].
  apply Forall_forall. intros x [_ Hx]%list_elem_of_filter. by eapply Forall_forall in Hall.
Qed.

Lemma ascending_suffix l1 l2 : l1 `suffix_of` l2 → ascending l2 → ascending l1.
Proof. intros [k ->]. apply StronglySorted_app_1_r. Qed.

(** The counter is ahead of every id handed out, and the ids were handed
    out in ascending order. *)
Lemma trace_ids ing log :
  trace ing log →
  ascending log ∧ Forall (λ e, id e < BaseIngestor.totalEventsReceived ing) log.
Proof.
  induction 1 as [| ing log ty d now _ [IHs IHb] | ing log _ IH | ing log s err _ IH];
    simpl; [split; constructor | | done | done].
  split.
  - apply StronglySorted_app_2; [|done|repeat constructor].
    intros e1 e2 He1 ->%list_elem_of_singleton. simpl.
    by eapply Forall_forall in IHb.
  - apply Forall_app. split.
    + eapply Forall_impl; [done|]. simpl. lia.
    + repeat constructor. simpl. lia.
Qed.

(** The ring buffer of an ingestor holds the events pushed since the last
    clear. *)
Lemma trace_buffer ing log :
  trace ing log →
  ∃ c live, 1 ≤ c ∧ represents c (BaseIngestor.buffer ing) live ∧ live `suffix_of` log.
Proof.
  induction 1 as [alias ty secrets size Hsize
                 | ing log ty d now _ (c & live & Hc & Hrep & Hsuf)
                 | ing log _ (c & live & Hc & Hrep & Hsuf)
                 | ing log s err _ IH]; simpl.
  - exists (default DEFAULT_BUFFER_SIZE size), []. split; [done|]. split; [|done].
    by apply represents_new.
  - eexists c, (live ++ [_]). split; [done|]. split.
    + by apply represents_push.
    + by apply suffix_app.
  - exists c, []. split; [done|]. split.
    + by eapply represents_clear.
    + apply suffix_nil.
  - done.
Qed.

Lemma since_defined (afterId : Z) (evs : list (IngestedEvent Data)) :
  RingBuffer.filter_callback
    (RingBuffer.since_callback (λ e : IngestedEvent Data, RingBuffer.IdNumber (id e)) afterId)
    (Some <$> evs)
  = Some (Some <$> filter (λ e, id e > afterId) evs).
Proof.
  induction evs as [|e evs IH]; [done|].
  rewrite fmap_cons, filter_cons. cbn [RingBuffer.filter_callback]. rewrite IH.
  cbn. case_bool_decide; case_decide; done.
Qed.

Lemma trace_getEvents ing log afterId :
  trace ing log →
  ∃ evs,
    RingBuffer.toArray (BaseIngestor.buffer ing) = Some <$> evs ∧
    ascending evs ∧
    BaseIngestor.getEvents afterId ing = Some (Some <$> events_after afterId evs).
Proof.
  intros Htrace.
  destruct (trace_buffer _ _ Htrace) as (c & live & Hc & Hrep & Hsuf).
  destruct (trace_ids _ _ Htrace) as [Hasc _].
  exists (drop (length live - Z.to_nat c) live).
  pose proof (toArray_represents c _ live Hc Hrep) as Harr.
  split; [done|]. split.
  - eapply ascending_suffix; [apply suffix_drop|]. by eapply ascending_suffix.
  - unfold BaseIngestor.getEvents, events_after, RingBuffer.since.
    rewrite Harr. case_bool_decide; [done|]. apply since_defined.
Qed.

(** C4. Event ids are handed out in strictly increasing order for the
    whole life of an ingestor: after any sequence of [pushEvent] calls,
    evictions and clears of the ring buffer, the ids handed out so far are
    in ascending order and the id that the next [pushEvent] assigns is
    greater than every one of them. *)
Theorem event_ids_strictly_increasing ing log eventType data now :
  trace ing log →
  ascending log ∧
  Forall (λ e, id e < id (BaseIngestor.pushEvent eventType data now ing).2) log.
Proof. intros Htrace. simpl. by apply trace_ids. Qed.

(** A history is a trace, and the ring buffer is in the state that the
    pushes since the last clear have left. *)
Lemma history_trace ing log live : history ing log live → trace ing log.
Proof. induction 1; by constructor. Qed.

Lemma history_buffer ing log live :
  history ing log live →
  1 ≤ RingBuffer.capacity (BaseIngestor.buffer ing) ∧
  represents (RingBuffer.capacity (BaseIngestor.buffer ing)) (BaseIngestor.buffer ing) live ∧
  live `suffix_of` log.
Proof.
  induction 1 as [alias ty secrets size Hsize
                 | ing log live ty d now _ (Hc & Hrep & Hsuf)
                 | ing log live _ (Hc & Hrep & Hsuf)
                 | ing log live s err _ IH]; simpl.
  - split; [done|]. split; [|done]. by apply represents_new.
  - pose proof Hrep as (Hcap & _). split; [done|]. split.
    + by apply represents_push.
    + by apply suffix_app.
  - pose proof Hrep as (Hcap & _). split; [done|]. split.
    + by eapply represents_clear.
    + apply suffix_nil.
  - done.
Qed.

(** C5. On an ingestor whose ring buffer of capacity [c] has had the
    events [live] pushed since it was last cleared, the buffer contents
    are the last [c] events of [live], oldest first. [getEvents(afterId)]
    returns all of them when [afterId < 0], and otherwise exactly those
    with [id > afterId]; in both cases the ids of the result ascend. *)
Theorem getEvents_after_cursor ing log live (afterId : option Z) :
  history ing log live →
  let buffered := last_items (RingBuffer.capacity (BaseIngestor.buffer ing)) live in
  ∃ result,
    RingBuffer.toArray (BaseIngestor.buffer ing) = Some <$> buffered ∧
    BaseIngestor.getEvents afterId ing = Some (Some <$> result) ∧
    (default (-1) afterId < 0 → result = buffered) ∧
    (0 ≤ default (-1) afterId → result = filter (λ e, id e > default (-1) afterId) buffered) ∧
    ascending result.
Proof.
  intros Hhistory buffered.
  destruct (history_buffer _ _ _ Hhistory) as (Hc & Hrep & Hsuf).
  destruct (trace_ids _ _ (history_trace _ _ _ Hhistory)) as [Hasc _].
  pose proof (toArray_represents _ _ live Hc Hrep) as Harr.
  assert (drop (length live - Z.to_nat (RingBuffer.capacity (BaseIngestor.buffer ing))) live
          = buffered) as Hdrop.
  { unfold buffered, last_items. f_equal. lia. }
  rewrite Hdrop in Harr.
  assert (ascending buffered) as Hbuffered.
  { eapply ascending_suffix; [|by eapply ascending_suffix].
    unfold buffered, last_items. apply suffix_drop. }
  exists (events_after afterId buffered). split; [done|]. split.
  { unfold BaseIngestor.getEvents, events_after, RingBuffer.since.
    rewrite Harr. case_bool_decide; [done|]. apply since_defined. }
  unfold events_after.
  case_bool_decide; (split; [intros; (done || lia)|]); (split; [intros; (done || lia)|]).
  - done.
  - by apply ascending_filter.
Qed.

End base_ingestor_spec.

Lemma pushed_trace events ing log :
  trace ing log → ∃ log', trace (Demo.pushed events ing) log'.
Proof.
  revert ing log. induction events as [|ev events IH]; intros ing log Htrace; simpl.
  - by exists log.
  - eapply IH. by apply trace_pushEvent.
Defined.

Lemma github_ingestor_trace : ∃ log, trace Demo.github_ingestor log.
Proof. eapply pushed_trace. by apply trace_new. Defined.

Lemma event_ids_strictly_increasing_witness :
  ∃ log,
    trace Demo.github_ingestor log ∧
    ascending log ∧
    Forall (λ e, id e < id (BaseIngestor.pushEvent "push" "push" "2026-01-01T00:00:07.000Z"
                              Demo.github_ingestor).2) log.
Proof.
  destruct github_ingestor_trace as [log Htrace]. exists log. split; [exact Htrace|].
  exact (event_ids_strictly_increasing _ log "push" "push" "2026-01-01T00:00:07.000Z" Htrace).
Defined.

Lemma getEvents_after_cursor_witness :
  let first := mkEvent 0 "2026-01-01T00:00:01.000Z" "github" "push" "push" in
  let second := mkEvent 1 "2026-01-01T00:00:03.000Z" "github" "issues" "issues" in
  let third := mkEvent 2 "2026-01-01T00:00:05.000Z" "github" "push" "push" in
  history Demo.github_ingestor [first; second; third] [first; second; third] ∧
  ∃ result,
    RingBuffer.toArray (BaseIngestor.buffer Demo.github_ingestor)
      = Some <$> [second; third] ∧
    BaseIngestor.getEvents (Some 1) Demo.github_ingestor = Some (Some <$> result) ∧
    (default (-1) (Some 1) < 0 → result = [second; third]) ∧
    (0 ≤ default (-1) (Some 1) →
       result = filter (λ e, id e > default (-1) (Some 1)) [second; third]) ∧
    ascending result.
Proof.
  intros first second third.
  assert (history Demo.github_ingestor [first; second; third] [first; second; third])
    as Hhistory.
  { pose proof (history_new (Data := string) "github" webhook ∅ (Some 2) ltac:(done)) as H0.
    pose proof (history_pushEvent _ _ _ "push" "push" "2026-01-01T00:00:01.000Z" H0) as H1.
    pose proof (history_pushEvent _ _ _ "issues" "issues" "2026-01-01T00:00:03.000Z" H1) as H2.
    exact (history_pushEvent _ _ _ "push" "push" "2026-01-01T00:00:05.000Z" H2). }
  split; [exact Hhistory|].
  exact (getEvents_after_cursor _ _ _ (Some 1) Hhistory).
Defined.

Example getEvents_returns_what_is_left_of_three_pushes :
  BaseIngestor.getEvents None Demo.github_ingestor
  = Some [Some (mkEvent 1 "2026-01-01T00:00:03.000Z" "github" "issues" "issues");
          Some (mkEvent 2 "2026-01-01T00:00:05.000Z" "github" "push" "push")].
Proof. by vm_compute. Qed.

Example getEvents_after_cursor_1 :
  BaseIngestor.getEvents (Some 1) Demo.github_ingestor
  = Some [Some (mkEvent 2 "2026-01-01T00:00:05.000Z" "github" "push" "push")].
Proof. by vm_compute. Qed.

Example ids_go_on_after_a_clear :
  let cleared := BaseIngestor.clearBuffer Demo.github_ingestor in
  let next := BaseIngestor.pushEvent "push" "push" "2026-01-01T00:00:09.000Z" cleared in
  id next.2 = 3 ∧
  BaseIngestor.getEvents None next.1
  = Some [Some (mkEvent 3 "2026-01-01T00:00:09.000Z" "github" "push" "push")].
Proof. by vm_compute. Qed.

(** ** The GitHub webhook ingestor *)

Section github_spec.
Context `{json : JsonParser} `{utf8 : Utf8Decoder}.
Implicit Types (ing : GitHubWebhookIngestor.t) (headers : gmap string HeaderValue)
  (rawBody : Buffer) (now : string).

Lemma checkSignature_unconfigured `{gh : GitHubTypes} ing ghHeaders rawBody :
  ¬ both_configured ing →
  GitHubWebhookIngestor.checkSignature ghHeaders rawBody ing
  = GitHubWebhookIngestor.CheckPasses.
Proof.
  intros Hnot. unfold GitHubWebhookIngestor.checkSignature, both_configured in *.
  destruct (JS.truthy (GitHubWebhookIngestor.signatureSecretName ing)),
    (JS.truthy (GitHubWebhookIngestor.signatureHeaderName ing)); simpl; tauto.
Qed.

(** What a passing check has established. *)
Lemma checkSignature_passes `{gh : GitHubTypes} ing ghHeaders rawBody :
  both_configured ing →
  GitHubWebhookIngestor.checkSignature ghHeaders rawBody ing
    = GitHubWebhookIngestor.CheckPasses →
  ∃ name secret signature,
    GitHubWebhookIngestor.signatureSecretName ing = Some name ∧
    BaseIngestor.secrets (GitHubWebhookIngestor.base ing) !! name = Some secret ∧
    gh_signature ghHeaders = Some signature ∧
    verifyGitHubSignature rawBody signature secret = true.
Proof.
  intros [Hs Hh]. unfold GitHubWebhookIngestor.checkSignature. rewrite Hs, Hh. simpl.
  destruct (GitHubWebhookIngestor.signatureSecretName ing) as [name|]; [|done]. simpl.
  unfold JS.get.
  destruct (BaseIngestor.secrets _ !! name) as [secret|] eqn:Hsecret.
  - destruct (JS.truthy_property _); [|done]. simpl.
    destruct (gh_signature ghHeaders) as [signature|]; [|done].
    destruct (JS.truthy (Some signature)); [|done]. simpl.
    destruct (verifyGitHubSignature rawBody signature secret) eqn:Hv; [|done].
    intros _. by exists name, secret, signature.
  - case_bool_decide; [|done]. simpl.
    destruct (gh_signature ghHeaders) as [signature|]; [|done].
    destruct (JS.truthy (Some signature)); [|done]. simpl.
    by destruct (verifyGitHubSignature_inherited _ _ _).
Qed.

Lemma checkSignature_rejects `{gh : GitHubTypes} ing ghHeaders rawBody r :
  GitHubWebhookIngestor.checkSignature ghHeaders rawBody ing
    = GitHubWebhookIngestor.CheckReturns r →
  accepted r = false ∧ reason r ≠ Some "Invalid JSON body".
Proof.
  unfold GitHubWebhookIngestor.checkSignature, GitHubWebhookIngestor.verifySignature.
  repeat (case_match; simpl); intros; simplify_eq; done.
Qed.

Lemma processBody_returns ing ghHeaders rawBody now :
  is_Some (GitHubWebhookIngestor.processBody ghHeaders rawBody now ing).1.1.
Proof.
  unfold GitHubWebhookIngestor.processBody. repeat (case_match; simpl); by eexists.
Qed.

Lemma processBody_rejects ing ghHeaders rawBody now :
  let r := GitHubWebhookIngestor.processBody ghHeaders rawBody now ing in
  accepted <$> r.1.1 ≠ Some true →
  r = (Some (mkResult false (Some "Invalid JSON body")), ing, []).
Proof.
  unfold GitHubWebhookIngestor.processBody.
  repeat (case_match; simpl); intros; simplify_eq; done.
Qed.

(** C1, as amended. Verification is skipped if and only if at least one
    of [signatureHeader] and [signatureSecret] is absent (or empty). When
    both are set, a request is accepted only if the secret is among the
    resolved secrets, the request carries a signature, and the signature
    verifies. *)
Theorem verification_skipped_iff_not_both_configured ing :
  (skips_verification ing ↔ ¬ both_configured ing) ∧
  (both_configured ing →
   ∀ (gh : GitHubTypes) headers rawBody now,
     accepted <$> (GitHubWebhookIngestor.handleWebhook headers rawBody now ing).1.1
       = Some true →
     ∃ name secret signature,
       GitHubWebhookIngestor.signatureSecretName ing = Some name ∧
       BaseIngestor.secrets (GitHubWebhookIngestor.base ing) !! name = Some secret ∧
       gh_signature (extractGitHubHeaders headers) = Some signature ∧
       verifyGitHubSignature rawBody signature secret = true).
Proof.
  split; [split|].
  - intros Hskip Hboth.
    set (deaf := {| extractGitHubHeaders := λ _, mkGitHubHeaders "" None None;
                    verifyGitHubSignature := λ _ _ _, false;
                    verifyGitHubSignature_inherited := λ _ _ _, Raises |}).
    specialize (Hskip deaf ∅ [] EmptyString).
    unfold GitHubWebhookIngestor.handleWebhook in Hskip.
    destruct (GitHubWebhookIngestor.checkSignature _ _ _) as [r| |] eqn:Hcheck.
    + apply checkSignature_rejects in Hcheck as [Hacc Hreason].
      symmetry in Hskip.
      pose proof (processBody_rejects ing
        (extractGitHubHeaders (GitHubTypes := deaf) ∅) [] EmptyString) as Hrej.
      cbv zeta in Hrej. rewrite Hskip in Hrej. simpl in Hrej.
      rewrite Hacc in Hrej. specialize (Hrej ltac:(done)). by simplify_eq.
    + pose proof (processBody_returns ing
        (extractGitHubHeaders (GitHubTypes := deaf) ∅) [] EmptyString) as [r Hr].
      by rewrite <-Hskip in Hr.
    + apply checkSignature_passes in Hcheck as (? & ? & ? & _ & _ & _ & ?); done.
  - intros Hnot gh headers rawBody now. unfold GitHubWebhookIngestor.handleWebhook.
    by rewrite checkSignature_unconfigured.
  - intros Hboth gh headers rawBody now. unfold GitHubWebhookIngestor.handleWebhook.
    destruct (GitHubWebhookIngestor.checkSignature _ _ _) as [r| |] eqn:Hcheck.
    + apply checkSignature_rejects in Hcheck as [Hacc _]. simpl. by rewrite Hacc.
    + done.
    + intros _. by apply checkSignature_passes.
Qed.


(** C10. A rejection is atomic: whenever [handleWebhook] does not answer
    [accepted: true] (it answers [accepted: false], or an exception
    escapes it), the ingestor (its ring buffer, [totalEventsReceived],
    [lastEventAt] and lifecycle state included) is exactly as before the
    call, and no event is emitted. *)
Theorem rejection_is_atomic `{gh : GitHubTypes} ing headers rawBody now :
  accepted <$> (GitHubWebhookIngestor.handleWebhook headers rawBody now ing).1.1
    ≠ Some true →
  (GitHubWebhookIngestor.handleWebhook headers rawBody now ing).1.2 = ing ∧
  (GitHubWebhookIngestor.handleWebhook headers rawBody now ing).2 = [].
Proof.
  unfold GitHubWebhookIngestor.handleWebhook.
  destruct (GitHubWebhookIngestor.checkSignature _ _ _) as [r| |]; [done|done|].
  intros Hacc. by rewrite (processBody_rejects _ _ _ _ Hacc).
Qed.

End github_spec.

(** C1, as stated, fails: with [signatureHeader] set and [signatureSecret]
    absent, a request without any signature is accepted and its event is
    pushed, even by a verifier that turns every signature down. *)
Lemma header_only_config_accepts_unsigned_request :
  let ing :=
    GitHubWebhookIngestor.new (json := Demo.json) "github" ∅ Demo.header_only None in
  let headers : gmap string HeaderValue := {[ "x-github-event" := HeaderOne "push" ]} in
  let answer :=
    GitHubWebhookIngestor.handleWebhook (utf8 := Demo.utf8) (gh := Demo.reject_all)
      headers (Demo.body "{}") "2026-01-01T00:00:00.000Z" ing in
  GitHubWebhookIngestor.signatureHeaderName ing = Some "X-Hub-Signature-256" ∧
  gh_signature (extractGitHubHeaders (GitHubTypes := Demo.reject_all) headers) = None ∧
  answer.1.1 = Some {| accepted := true; reason := None |} ∧
  BaseIngestor.totalEventsReceived (GitHubWebhookIngestor.base answer.1.2) = 1 ∧
  length answer.2 = 1%nat.
Proof. repeat split; vm_compute; reflexivity. Qed.


Lemma verification_skipped_iff_not_both_configured_witness :
  skips_verification (utf8 := Demo.utf8)
    (GitHubWebhookIngestor.new (json := Demo.json) "github" ∅ Demo.header_only None).
Proof.
  apply (verification_skipped_iff_not_both_configured (utf8 := Demo.utf8)).
  intros [Hsecret _]. vm_compute in Hsecret. discriminate.
Defined.


Lemma rejection_is_atomic_witness :
  let ing := GitHubWebhookIngestor.new (json := Demo.json) "github" ∅ Demo.header_only None in
  let answer :=
    GitHubWebhookIngestor.handleWebhook (utf8 := Demo.utf8) (gh := Demo.reject_all)
      ∅ (Demo.body "not json") "2026-01-01T00:00:00.000Z" ing in
  accepted <$> answer.1.1 ≠ Some true ∧ answer.1.2 = ing ∧ answer.2 = [].
Proof.
  assert (accepted <$>
    (GitHubWebhookIngestor.handleWebhook (json := Demo.json) (utf8 := Demo.utf8)
       (gh := Demo.reject_all) ∅ (Demo.body "not json") "2026-01-01T00:00:00.000Z"
       (GitHubWebhookIngestor.new "github" ∅ Demo.header_only None)).1.1 ≠ Some true) as Hacc.
  { vm_compute. discriminate. }
  split; [exact Hacc|].
  exact (rejection_is_atomic (utf8 := Demo.utf8) (gh := Demo.reject_all) _ _ _ _ Hacc).
Defined.

(** ** Stripe signatures *)

Section stripe_spec.
Context `{utf8 : Utf8Decoder} `{hmac : HmacSha256} `{num : NumberConversion}.

Lemma parse_parts_skip part parts ts sigs :
  component part = None →
  Stripe.parse_parts (part :: parts) ts sigs = Stripe.parse_parts parts ts sigs.
Proof.
  unfold component. cbn [Stripe.parse_parts].
  destruct (JS.split_limit "=" 2 part) as [|key [|value [|? ?]]] eqn:Hkv; simpl; try done.
  - destruct (bool_decide (key ≠ "")); done.
  - case_bool_decide as Hne; [done|]. intros _.
    destruct (decide (key = "")) as [->|]; [done|].
    destruct (decide (value = "")) as [->|]; [|tauto].
    simpl. by rewrite orb_true_r.
  - intros _. assert (length (JS.split_limit "=" 2 part) ≤ 2)%nat as Hlen.
    { unfold JS.split_limit. rewrite length_take. lia. }
    rewrite Hkv in Hlen. simpl in Hlen. lia.
Qed.

Lemma parse_parts_component part parts ts sigs key value :
  component part = Some (key, value) →
  Stripe.parse_parts (part :: parts) ts sigs =
    if bool_decide (key = "t") then
      if JS.isNaN (Number value) then None
      else Stripe.parse_parts parts (Some (Number value)) sigs
    else if bool_decide (key = "v1") then Stripe.parse_parts parts ts (sigs ++ [value])
    else Stripe.parse_parts parts ts sigs.
Proof.
  unfold component. cbn [Stripe.parse_parts].
  destruct (JS.split_limit "=" 2 part) as [|k [|v [|? ?]]] eqn:Hkv; simpl; try done.
  case_bool_decide as Hne; [|done]. intros [= <- <-]. destruct Hne as [Hk Hv].
  rewrite !bool_decide_eq_true_2 by done. done.
Qed.

Lemma values_of_cons_eq key value cs :
  values_of key ((key, value) :: cs) = value :: values_of key cs.
Proof. unfold values_of. rewrite filter_cons. simpl. by rewrite decide_True. Qed.

Lemma values_of_cons_ne key key' value cs :
  key' ≠ key → values_of key ((key', value) :: cs) = values_of key cs.
Proof. intros. unfold values_of. rewrite filter_cons. simpl. by rewrite decide_False. Qed.

Lemma last_numeric value vs (ts : option number) :
  from_option Some (Some (Number value)) (Number <$> last vs)
  = from_option Some ts (Number <$> last (value :: vs)).
Proof. rewrite last_cons. by destruct (last vs). Qed.

(** The loop of [parseStripeSignatureHeader] in terms of the components:
    it fails on the first [t=] value that is not a number, and otherwise
    ends with the last [t=] number and all [v1=] values. *)
Lemma parse_parts_spec parts ts sigs :
  Stripe.parse_parts parts ts sigs =
    if decide (Forall (λ v, JS.isNaN (Number v) = false)
                 (values_of "t" (omap component parts)))
    then Some (from_option Some ts (Number <$> last (values_of "t" (omap component parts))),
               sigs ++ values_of "v1" (omap component parts))
    else None.
Proof.
  revert ts sigs. induction parts as [|part parts IH]; intros ts sigs.
  - cbn. by rewrite app_nil_r.
  - destruct (component part) as [[key value]|] eqn:Hc.
    + rewrite (parse_parts_component _ _ _ _ _ _ Hc).
      cbn [omap list_omap]. rewrite Hc.
      set (cs := omap component parts) in *.
      case_bool_decide as Ht; [|case_bool_decide as Hv].
      * subst key. rewrite values_of_cons_eq, (values_of_cons_ne "v1") by done.
        destruct (JS.isNaN (Number value)) eqn:Hn.
        -- rewrite decide_False; [done|]. intros [? _]%Forall_cons. congruence.
        -- rewrite IH. destruct (decide (Forall _ (values_of "t" cs))) as [Hall|Hnall].
           ++ rewrite decide_True by (by constructor).
              f_equal. f_equal. apply last_numeric.
           ++ rewrite decide_False; [done|]. by intros [_ ?]%Forall_cons.
      * subst key. rewrite values_of_cons_eq, (values_of_cons_ne "t") by done.
        rewrite IH. case_decide; [|done]. by rewrite <-app_assoc.
      * rewrite !values_of_cons_ne by done. apply IH.
    + rewrite (parse_parts_skip _ _ _ _ Hc). cbn [omap list_omap]. rewrite Hc. apply IH.
Qed.

Lemma parse_malformed header :
  ¬ (all_t_numeric header ∧ has_v1 header) → Stripe.parseStripeSignatureHeader header = None.
Proof.
  unfold all_t_numeric, has_v1, Stripe.parseStripeSignatureHeader, components.
  intros Hnot. rewrite parse_parts_spec. case_decide as Hall; [|done].
  destruct (values_of "t" _) as [|v vs] eqn:Hvs using rev_ind; [done|]. clear IHvs.
  rewrite last_snoc. simpl.
  case_bool_decide as Hlen; [done|].
  destruct Hnot. split; [split; [by destruct vs|done]|].
  intros Hnil. by rewrite Hnil in Hlen.
Qed.

Lemma parse_well_formed header :
  all_t_numeric header → has_v1 header →
  ∃ t, last_t header = Some t ∧ JS.isNaN t = false ∧
    Stripe.parseStripeSignatureHeader header
    = Some {| Stripe.timestamp := t;
              Stripe.signatures := values_of "v1" (components header) |}.
Proof.
  unfold all_t_numeric, has_v1, last_t, Stripe.parseStripeSignatureHeader, components.
  intros [Hne Hall] Hv1. rewrite parse_parts_spec, decide_True by done.
  destruct (values_of "t" _) as [|v vs] eqn:Hvs using rev_ind; [done|]. clear IHvs.
  rewrite last_snoc. simpl.
  apply Forall_app in Hall as [_ [HNaN _]%Forall_cons].
  exists (Number v). split; [done|]. split; [done|]. rewrite bool_decide_eq_false_2; [done|].
  by destruct (values_of "v1" _).
Qed.

Lemma any_signature_spec (expectedBuf : Buffer) (signatures : list string) :
  Stripe.any_signature expectedBuf signatures = true ↔
  ∃ sig, sig ∈ signatures ∧ JS.Buffer_from_hex sig = expectedBuf.
Proof.
  induction signatures as [|sig sigs IH]; simpl.
  - split; [done|]. by intros (? & ?%elem_of_nil & _).
  - unfold Stripe.try_signature, JS.timingSafeEqual.
    destruct (decide (JS.Buffer_from_hex sig = expectedBuf)) as [Heq|Hne].
    + rewrite !bool_decide_eq_true_2 by by rewrite ?Heq.
      split; [|done]. intros _. exists sig. split; [left|done].
    + assert (Stripe.any_signature expectedBuf sigs = true ↔
              ∃ s, s ∈ sig :: sigs ∧ JS.Buffer_from_hex s = expectedBuf) as <-.
      { rewrite IH. split.
        - intros (s & ? & ?). exists s. split; [by right|done].
        - intros (s & [->|?]%elem_of_cons & ?); [done|by exists s]. }
      case_bool_decide; [|done]. by rewrite bool_decide_eq_false_2.
Qed.

(** C2, as amended. Numbers are those of JavaScript: what [Number]
    reads from the text of a [t=] component (an integer, a fraction, an
    infinity), and any tolerance and clock reading. The header is
    malformed, and the verdict says so, exactly when it has no [t=]
    component, or a [t=] component that reads as NaN, or no [v1=]
    component. Otherwise, with [t] the number of the last [t=]
    component: the verdict is "Timestamp outside tolerance window" when
    the tolerance is greater than 0 and [|now - t|] is greater than the
    tolerance; if not, the signature is valid if and only if some [v1]
    signature decodes to the bytes of the hex HMAC-SHA256 of [t.rawBody]
    under the secret, and the verdict is "Signature verification failed"
    if none does. A tolerance that is not greater than 0 takes the clock
    out of the verdict. *)
Theorem stripe_signature_verdict rawBody header secret tolerance now :
  let tol := default Stripe.DEFAULT_TIMESTAMP_TOLERANCE tolerance in
  let verdict := Stripe.verifyStripeSignature rawBody header secret tolerance now in
  (¬ (all_t_numeric header ∧ has_v1 header) ↔
     verdict = Stripe.mkVerdict false (Some "Malformed Stripe-Signature header")) ∧
  (all_t_numeric header → has_v1 header →
     ∃ t, last_t header = Some t ∧ JS.isNaN t = false ∧
       (outside_window tol now t →
          verdict = Stripe.mkVerdict false (Some "Timestamp outside tolerance window")) ∧
       (¬ outside_window tol now t →
          (some_v1_matches rawBody header secret t → verdict = Stripe.mkVerdict true None) ∧
          (¬ some_v1_matches rawBody header secret t →
             verdict = Stripe.mkVerdict false (Some "Signature verification failed")))) ∧
  (JS.gt tol (JS.number_of_Z 0) = false →
     ∀ now', Stripe.verifyStripeSignature rawBody header secret tolerance now' = verdict).
Proof.
  intros tol verdict. subst verdict. unfold Stripe.verifyStripeSignature. fold tol.
  split; [|split].
  - split.
    + intros Hbad. by rewrite parse_malformed.
    + intros Hverdict [Hts Hv1].
      destruct (parse_well_formed header Hts Hv1) as (t & _ & _ & Hparse).
      rewrite Hparse in Hverdict. simpl in Hverdict.
      repeat case_match; simplify_eq.
  - intros Hts Hv1. destruct (parse_well_formed header Hts Hv1) as (t & Ht & HNaN & ->).
    exists t. split; [done|]. split; [done|].
    cbn [Stripe.timestamp Stripe.signatures]. split.
    + intros [Htol Hage]. by rewrite Htol, Hage.
    + intros Hin.
      assert (JS.gt tol (JS.number_of_Z 0) && JS.gt (JS.Math_abs (JS.minus now t)) tol
              = false) as ->.
      { unfold outside_window in Hin.
        destruct (JS.gt tol _), (JS.gt (JS.Math_abs _) tol); simpl; tauto. }
      unfold some_v1_matches, expected_signature.
      rewrite <-any_signature_spec. by destruct (Stripe.any_signature _ _).
  - intros Htol now'.
    destruct (Stripe.parseStripeSignatureHeader header); [|done].
    fold tol. by rewrite Htol.
Qed.

End stripe_spec.

(** C2, as stated, fails: beside a numeric [t=] component and a matching
    [v1] signature, a second [t=] component that is not a number makes the
    header malformed, and the signature invalid. *)
Lemma stray_t_component_invalidates_matching_signature :
  let stripe_valid :=
    @Stripe.verifyStripeSignature Demo.utf8 Demo.hmac Demo.num in
  let t := JS.number_of_Z 1700000000 in
  let sig :=
    @expected_signature Demo.utf8 Demo.hmac Demo.num (Demo.body "{}") "whsec_test" t in
  let header := "t=abc,t=1700000000,v1=" +:+ sig in
  @has_numeric_t Demo.num header ∧
  has_v1 header ∧
  @some_v1_matches Demo.utf8 Demo.hmac Demo.num (Demo.body "{}") header "whsec_test" t ∧
  stripe_valid (Demo.body "{}") header "whsec_test" (Some (JS.number_of_Z 0)) t
  = Stripe.mkVerdict false (Some "Malformed Stripe-Signature header").
Proof.
  split; [|split; [|split]].
  - exists "1700000000". split; [|by vm_compute]. vm_compute. right. left.
  - by vm_compute.
  - eexists. split; [|reflexivity]. vm_compute. left.
  - by vm_compute.
Qed.

Example stripe_accepts_matching_signature :
  let sig :=
    @expected_signature Demo.utf8 Demo.hmac Demo.num (Demo.body "{}") "whsec_test"
      (JS.number_of_Z 1700000000) in
  @Stripe.verifyStripeSignature Demo.utf8 Demo.hmac Demo.num
    (Demo.body "{}") ("t=1700000000,v1=" +:+ sig) "whsec_test" None
    (JS.number_of_Z 1700000100)
  = Stripe.mkVerdict true None.
Proof. by vm_compute. Qed.

Example stripe_rejects_old_timestamp :
  let sig :=
    @expected_signature Demo.utf8 Demo.hmac Demo.num (Demo.body "{}") "whsec_test"
      (JS.number_of_Z 1700000000) in
  @Stripe.verifyStripeSignature Demo.utf8 Demo.hmac Demo.num
    (Demo.body "{}") ("t=1700000000,v1=" +:+ sig) "whsec_test" None
    (JS.number_of_Z 1700000600)
  = Stripe.mkVerdict false (Some "Timestamp outside tolerance window").
Proof. by vm_compute. Qed.

(** A timestamp need not be an integer: [t=1700000000.5] is a number, it
    is signed as [1700000000.5.<body>], and half a second is within the
    tolerance. *)
Example stripe_accepts_fractional_timestamp :
  let t := @Number Demo.num "1700000000.5" in
  let sig :=
    @expected_signature Demo.utf8 Demo.hmac Demo.num (Demo.body "{}") "whsec_test" t in
  @Number_toString Demo.num t = "1700000000.5" ∧
  @Stripe.parseStripeSignatureHeader Demo.num ("t=1700000000.5,v1=" +:+ sig)
    = Some {| Stripe.timestamp := t; Stripe.signatures := [sig] |} ∧
  @Stripe.verifyStripeSignature Demo.utf8 Demo.hmac Demo.num
    (Demo.body "{}") ("t=1700000000.5,v1=" +:+ sig) "whsec_test" None
    (JS.number_of_Z 1700000000)
  = Stripe.mkVerdict true None.
Proof. by vm_compute. Qed.

(** A tolerance that is NaN is not greater than 0, and switches the
    check of the timestamp off. *)
Example stripe_tolerance_NaN_disables_the_window :
  let sig :=
    @expected_signature Demo.utf8 Demo.hmac Demo.num (Demo.body "{}") "whsec_test"
      (JS.number_of_Z 1700000000) in
  @Stripe.verifyStripeSignature Demo.utf8 Demo.hmac Demo.num
    (Demo.body "{}") ("t=1700000000,v1=" +:+ sig) "whsec_test" (Some SpecFloat.S754_nan)
    (JS.number_of_Z 1800000000)
  = Stripe.mkVerdict true None.
Proof. by vm_compute. Qed.

Example stripe_parses_spaced_header :
  @Stripe.parseStripeSignatureHeader Demo.num "t = 1234567890, v0=old, v1 = abc123,v1=sig2"
  = Some {| Stripe.timestamp := JS.number_of_Z 1234567890;
            Stripe.signatures := ["abc123"; "sig2"] |}.
Proof. by vm_compute. Qed.

Example stripe_header_without_t_is_malformed :
  @Stripe.parseStripeSignatureHeader Demo.num "v1=abc123" = None.
Proof. by vm_compute. Qed.

Example stripe_header_without_v1_is_malformed :
  @Stripe.parseStripeSignatureHeader Demo.num "t=1234567890" = None.
Proof. by vm_compute. Qed.

Example stripe_header_with_a_word_for_t_is_malformed :
  @Stripe.parseStripeSignatureHeader Demo.num "t=notanumber,v1=abc123" = None.
Proof. by vm_compute. Qed.

Example stripe_empty_header_is_malformed :
  @Stripe.parseStripeSignatureHeader Demo.num "" = None.
Proof. by vm_compute. Qed.

Example hex_decoding_stops_at_the_first_bad_pair :
  JS.Buffer_from_hex "ABcdzz12" = JS.Buffer_from_hex "abcd" ∧
  length (JS.Buffer_from_hex "abcd") = 2%nat ∧
  JS.Buffer_from_hex "abc" = JS.Buffer_from_hex "ab".
Proof. by vm_compute. Qed.

(** ** Trello signatures *)




Section trello_spec.
Context `{utf8 : Utf8Decoder} `{hmac : HmacSha1}.




End trello_spec.


Example trello_accepts_the_signature :
  @Trello.verifyTrelloSignature Demo.utf8 Demo.hmac1
    (Demo.body "{}") "gg==" "secret" "https://example.com/hook" = true.
Proof. by vm_compute. Qed.

Example trello_rejects_another_signature :
  @Trello.verifyTrelloSignature Demo.utf8 Demo.hmac1
    (Demo.body "{}") "gw==" "secret" "https://example.com/hook" = false ∧
  @Trello.verifyTrelloSignature Demo.utf8 Demo.hmac1
    (Demo.body "{}") "gggg" "secret" "https://example.com/hook" = false ∧
  @Trello.verifyTrelloSignature Demo.utf8 Demo.hmac1
    (Demo.body "{}") "" "secret" "https://example.com/hook" = false.
Proof. by vm_compute. Qed.

Example base64_decoding_is_lenient :
  JS.Buffer_from_base64 "QUJD" = Demo.body "ABC" ∧
  JS.Buffer_from_base64 "QU JD" = Demo.body "ABC" ∧
  JS.Buffer_from_base64 "QUI=" = Demo.body "AB" ∧
  JS.Buffer_from_base64 "QUI" = Demo.body "AB" ∧
  JS.Buffer_from_base64 "-_-_" = JS.Buffer_from_base64 "+/+/".
Proof. by vm_compute. Qed.

(** ** Sorting with a consistent comparator *)

Section sort_spec.
Context {A : Type} (compare : A → A → Z).

Hypothesis before_trans : ∀ x y z, before compare x y → before compare y z → before compare x z.
Hypothesis before_total : ∀ x y, before compare x y ∨ before compare y x.

#[local] Abbreviation before := (before compare).
#[local] Abbreviation tied := (tied compare).

Lemma sort_insert_perm x l : JS.sort_insert compare x l ≡ₚ x :: l.
Proof.
  induction l as [|y l IH]; simpl; [done|].
  case_bool_decide; [done|]. rewrite IH. apply Permutation_swap.
Qed.

Lemma sort_defined_perm l : JS.sort_defined compare l ≡ₚ l.
Proof.
  induction l as [|x l IH]; simpl; [done|]. by rewrite sort_insert_perm, IH.
Qed.





Lemma defined_Some (l : list A) : JS.defined (Some <$> l) = l.
Proof. induction l; simpl; by f_equal. Qed.

Lemma sort_all_defined l : JS.sort compare (Some <$> l) = Some <$> JS.sort_defined compare l.
Proof.
  unfold JS.sort.
  rewrite defined_Some.
  assert (filter (λ o : option A, o = None) (Some <$> l) = []) as ->.
  { induction l; [done|]. by rewrite fmap_cons, filter_cons, decide_False. }
  by rewrite app_nil_r.
Qed.

End sort_spec.

(** ** The ingestor manager *)

Section manager_spec.
Context `{collator : Collator} {Data : Type}.
Implicit Types (mgr : IngestorManager.t Data) (ing : BaseIngestor.t Data)
  (callerAlias : string) (afterId : option Z).

Lemma getEvents_traced afterId ing log :
  trace ing log →
  BaseIngestor.getEvents (Some (default (-1) afterId)) ing = Some (Some <$> events_of afterId ing).
Proof.
  intros Htrace. unfold events_of.
  destruct (trace_getEvents _ _ (Some (default (-1) afterId)) Htrace) as (evs & _ & _ & ->).
  simpl. by rewrite defined_Some.
Qed.

Lemma collect_running callerAlias afterId (entries : list (string * BaseIngestor.t Data))
    (acc : list (IngestedEvent Data)) :
  Forall (λ entry, ∃ log, trace entry.2 log) entries →
  IngestorManager.collect (callerAlias +:+ ":") (default (-1) afterId) entries (Some <$> acc)
  = Some (Some <$> acc ++
            (entry ← filter (λ entry, JS.startsWith entry.1 (callerAlias +:+ ":") = true)
                        entries;
             events_of afterId entry.2)).
Proof.
  intros Hall. revert acc.
  induction Hall as [|[key ing] entries [log Htrace] _ IH]; intros acc; simpl.
  - by rewrite app_nil_r.
  - rewrite filter_cons. simpl.
    destruct (JS.startsWith key _) eqn:Hkey.
    + rewrite decide_True by done.
      rewrite (getEvents_traced _ _ _ Htrace). simpl.
      rewrite <-fmap_app, IH. by rewrite <-app_assoc.
    + rewrite decide_False by done. apply IH.
Qed.

Hypothesis compare_trans :
  ∀ a b c : string, localeCompare a b ≤ 0 → localeCompare b c ≤ 0 → localeCompare a c ≤ 0.
Hypothesis compare_total :
  ∀ a b : string, localeCompare a b ≤ 0 ∨ localeCompare b a ≤ 0.


End manager_spec.



Lemma demo_manager_running : running Demo.manager.
Proof.
  repeat constructor; simpl; eapply pushed_trace; by apply trace_new.
Defined.

Example getAllEvents_merges_the_callers_ingestors :
  IngestorManager.getAllEvents (collator := Demo.collator) "agent" None Demo.manager
  = Some [Some (mkEvent 1 "2026-01-01T00:00:03.000Z" "github" "issues" "issues");
          Some (mkEvent 0 "2026-01-01T00:00:03.000Z" "stripe" "invoice.paid" "invoice.paid");
          Some (mkEvent 1 "2026-01-01T00:00:04.000Z" "stripe" "charge.failed" "charge.failed");
          Some (mkEvent 2 "2026-01-01T00:00:05.000Z" "github" "push" "push")].
Proof. by vm_compute. Qed.


(** ** The override merge *)

Section merge_spec.
Import MergeConfig.
Implicit Types (σ : store) (l : loc) (ov : IngestorOverrides) (v : ConfigValue).

Lemma alloc_fresh o σ : σ !! (alloc o σ).1 = None.
Proof. unfold alloc. simpl. apply not_elem_of_dom, is_fresh. Qed.

Lemma alloc_extends o σ : σ ⊆ (alloc o σ).2.
Proof. unfold alloc. simpl. apply insert_subseteq, not_elem_of_dom, is_fresh. Qed.

Lemma alloc_lookup o σ : (alloc o σ).2 !! (alloc o σ).1 = Some o.
Proof. unfold alloc. simpl. apply lookup_insert_eq. Qed.

Lemma read_websocket_extends σ σ' r b :
  σ ⊆ σ' → read_websocket σ r = Some b → read_websocket σ' r = Some b.
Proof.
  intros Hsub. unfold read_websocket. destruct r as [l|]; [|done].
  destruct (σ !! l) as [o|] eqn:Hl; [|done].
  by rewrite (lookup_weaken _ _ _ _ Hl Hsub).
Qed.

Lemma read_webhook_extends σ σ' r b :
  σ ⊆ σ' → read_webhook σ r = Some b → read_webhook σ' r = Some b.
Proof.
  intros Hsub. unfold read_webhook. destruct r as [l|]; [|done].
  destruct (σ !! l) as [o|] eqn:Hl; [|done].
  by rewrite (lookup_weaken _ _ _ _ Hl Hsub).
Qed.

Lemma read_poll_extends σ σ' r b :
  σ ⊆ σ' → read_poll σ r = Some b → read_poll σ' r = Some b.
Proof.
  intros Hsub. unfold read_poll. destruct r as [l|]; [|done].
  destruct (σ !! l) as [o|] eqn:Hl; [|done].
  by rewrite (lookup_weaken _ _ _ _ Hl Hsub).
Qed.

Lemma read_config_extends σ σ' l v :
  σ ⊆ σ' → read_config σ l = Some v → read_config σ' l = Some v.
Proof.
  intros Hsub. unfold read_config.
  destruct (σ !! l) as [[type ws wh p| | |]|] eqn:Hl; try done.
  rewrite (lookup_weaken _ _ _ _ Hl Hsub).
  destruct (read_websocket σ ws) as [bws|] eqn:Hws; [|done].
  destruct (read_webhook σ wh) as [bwh|] eqn:Hwh; [|done].
  destruct (read_poll σ p) as [bp|] eqn:Hp; [|done].
  by rewrite (read_websocket_extends _ _ _ _ Hsub Hws),
    (read_webhook_extends _ _ _ _ Hsub Hwh), (read_poll_extends _ _ _ _ Hsub Hp).
Qed.

Lemma read_config_alloc type ws wh p σ bws bwh bp :
  read_websocket σ ws = Some bws → read_webhook σ wh = Some bwh → read_poll σ p = Some bp →
  read_config (alloc (ConfigObject type ws wh p) σ).2 (alloc (ConfigObject type ws wh p) σ).1
  = Some {| cv_type := type; cv_websocket := bws; cv_webhook := bwh; cv_poll := bp |}.
Proof.
  intros Hws Hwh Hp. unfold read_config. rewrite alloc_lookup.
  by rewrite (read_websocket_extends _ _ _ _ (alloc_extends _ σ) Hws),
    (read_webhook_extends _ _ _ _ (alloc_extends _ σ) Hwh),
    (read_poll_extends _ _ _ _ (alloc_extends _ σ) Hp).
Qed.

(** C9. For a template that is a well-formed config [v] in the store and
    any set of overrides, the merge returns a new object; every object of
    the store, the template and its blocks among them, is as before, so
    the template still reads as [v]; and the result reads as [v] with the
    websocket overrides applied if [v] is a websocket config, and
    [intervalMs] applied if [v] is a poll config. *)
Theorem merge_leaves_template_unchanged template ov σ v :
  read_config σ template = Some v →
  ∃ l σ',
    mergeIngestorConfig template ov σ = Some (l, σ') ∧
    σ !! l = None ∧
    (∀ k o, σ !! k = Some o → σ' !! k = Some o) ∧
    read_config σ' template = Some v ∧
    read_config σ' l = Some (merge_value ov v) ∧
    (cv_type v ≠ websocket → cv_websocket (merge_value ov v) = cv_websocket v) ∧
    (cv_type v ≠ poll → cv_poll (merge_value ov v) = cv_poll v).
Proof.
  intros Hread.
  assert (∀ l σ', σ ⊆ σ' → σ !! l = None →
            read_config σ' l = Some (merge_value ov v) →
            mergeIngestorConfig template ov σ = Some (l, σ') →
          ∃ l σ',
            mergeIngestorConfig template ov σ = Some (l, σ') ∧
            σ !! l = None ∧
            (∀ k o, σ !! k = Some o → σ' !! k = Some o) ∧
            read_config σ' template = Some v ∧
            read_config σ' l = Some (merge_value ov v) ∧
            (cv_type v ≠ websocket → cv_websocket (merge_value ov v) = cv_websocket v) ∧
            (cv_type v ≠ poll → cv_poll (merge_value ov v) = cv_poll v)) as Hfinish.
  { intros l σ' Hsub Hfresh Hresult Hmerge. exists l, σ'.
    split; [done|]. split; [done|].
    split; [intros k o Hk; by eapply lookup_weaken|].
    split; [by eapply read_config_extends|]. split; [done|].
    unfold merge_value. simpl. by destruct (cv_type v). }
  unfold mergeIngestorConfig in *. rewrite Hread in *.
  pose proof Hread as Hv. unfold read_config in Hv.
  destruct (σ !! template) as [[type ws wh p| | |]|] eqn:Htemplate; try done.
  destruct (read_websocket σ ws) as [bws|] eqn:Hws; [|done].
  destruct (read_webhook σ wh) as [bwh|] eqn:Hwh; [|done].
  destruct (read_poll σ p) as [bp|] eqn:Hp; [|done].
  cbn in Hv. injection Hv as <-. unfold merge_value in *. cbn -[alloc] in *.
  assert (∀ o, ∃ l σ', alloc o σ = (l, σ') ∧ σ ⊆ σ' ∧ σ !! l = None ∧ σ' !! l = Some o)
    as Halloc.
  { intros o. exists (alloc o σ).1, (alloc o σ).2. split; [by destruct (alloc o σ)|].
    split; [apply alloc_extends|]. split; [apply alloc_fresh|apply alloc_lookup]. }
  assert (∀ σ' ws' p' bws' bp' (a := alloc (ConfigObject type ws' wh p') σ'),
            σ ⊆ σ' → read_websocket σ' ws' = Some bws' → read_poll σ' p' = Some bp' →
            σ ⊆ a.2 ∧ σ !! a.1 = None ∧
            read_config a.2 a.1 = Some (mkValue type bws' bwh bp')) as Hcopy.
  { intros σ' ws' p' bws' bp' a Hsub Hws' Hp'. subst a.
    split; [etrans; [done|apply alloc_extends]|].
    split; [eapply lookup_weaken_None; [apply alloc_fresh|done]|].
    apply read_config_alloc; [done| |done]. by eapply read_webhook_extends. }
  assert (∀ (o : object) σ', alloc o σ' = ((alloc o σ').1, (alloc o σ').2)) as Hpair
    by (intros; by destruct (alloc _ _)).
  destruct type.
  - destruct bws as [block|].
    + destruct (Halloc (WebSocketObject (apply_websocket ov block)))
        as (l1 & σ1 & Ha1 & Hsub1 & Hfresh1 & Hl1).
      rewrite Ha1 in *.
      destruct (Hcopy σ1 (Some l1) p (Some (apply_websocket ov block)) bp) as (? & ? & ?);
        [done| |by eapply read_poll_extends|].
      * simpl. by rewrite Hl1.
      * eapply Hfinish; [done|done|done|]. by rewrite <-Hpair.
    + destruct (Hcopy σ ws p None bp) as (? & ? & ?); [done|done|done|].
      eapply Hfinish; [done|done|done|]. by rewrite <-Hpair.
  - destruct (Hcopy σ ws p bws bp) as (? & ? & ?); [done|done|done|].
    eapply Hfinish; [done|done|done|]. rewrite <-Hpair. by destruct bws.
  - destruct bp as [block|].
    + destruct (Halloc (PollObject (apply_poll ov block)))
        as (l1 & σ1 & Ha1 & Hsub1 & Hfresh1 & Hl1).
      rewrite Ha1 in *.
      destruct (Hcopy σ1 ws (Some l1) bws (Some (apply_poll ov block))) as (? & ? & ?);
        [done|by eapply read_websocket_extends| |].
      * simpl. by rewrite Hl1.
      * eapply Hfinish; [done|done|done|]. rewrite <-Hpair. by destruct bws.
    + destruct (Hcopy σ ws p bws None) as (? & ? & ?); [done|done|done|].
      eapply Hfinish; [done|done|done|]. rewrite <-Hpair. by destruct bws.
Qed.

End merge_spec.

Lemma merge_leaves_template_unchanged_witness :
  MergeConfig.read_config Demo.store 1%positive = Some Demo.discord_value ∧
  ∃ l σ',
    MergeConfig.mergeIngestorConfig 1%positive Demo.overrides Demo.store = Some (l, σ') ∧
    Demo.store !! l = None ∧
    (∀ k o, Demo.store !! k = Some o → σ' !! k = Some o) ∧
    MergeConfig.read_config σ' 1%positive = Some Demo.discord_value ∧
    MergeConfig.read_config σ' l
      = Some (MergeConfig.merge_value Demo.overrides Demo.discord_value) ∧
    (MergeConfig.cv_type Demo.discord_value ≠ websocket →
       MergeConfig.cv_websocket (MergeConfig.merge_value Demo.overrides Demo.discord_value)
       = MergeConfig.cv_websocket Demo.discord_value) ∧
    (MergeConfig.cv_type Demo.discord_value ≠ poll →
       MergeConfig.cv_poll (MergeConfig.merge_value Demo.overrides Demo.discord_value)
       = MergeConfig.cv_poll Demo.discord_value).
Proof.
  assert (MergeConfig.read_config Demo.store 1%positive = Some Demo.discord_value) as Hread
    by (vm_compute; reflexivity).
  split; [exact Hread|].
  exact (merge_leaves_template_unchanged 1%positive Demo.overrides Demo.store _ Hread).
Defined.

Example merge_overrides_intents_and_guildIds :
  (MergeConfig.mergeIngestorConfig 1%positive Demo.overrides Demo.store
     ≫= λ r, MergeConfig.read_config r.2 r.1)
  = Some {| MergeConfig.cv_type := websocket;
            MergeConfig.cv_websocket :=
              Some {| MergeConfig.gatewayUrl := "wss://gateway.discord.gg/?v=10&encoding=json";
                      MergeConfig.protocol := Some "discord";
                      MergeConfig.ws_eventFilter := None;
                      MergeConfig.ws_intents := Some 4609;
                      MergeConfig.ws_guildIds := Some ["123"];
                      MergeConfig.ws_channelIds := None;
                      MergeConfig.ws_userIds := None |};
            MergeConfig.cv_webhook := None;
            MergeConfig.cv_poll := None |}.
Proof. by vm_compute. Qed.

Example merge_ignores_websocket_overrides_for_poll :
  (MergeConfig.mergeIngestorConfig 3%positive Demo.overrides Demo.store
     ≫= λ r, MergeConfig.read_config r.2 r.1)
  = MergeConfig.read_config Demo.store 3%positive.
Proof. by vm_compute. Qed.

(** * Part III: further properties of the code *)

(** ** The ring buffer under pushes and clears *)

Section ring_buffer_calls_spec.
Context {T : Type}.
Implicit Types (rb : RingBuffer.t T) (calls : list (ring_call T)) (c : Z).

Lemma pushed_since_clear_snoc calls call :
  pushed_since_clear (calls ++ [call])
  = match call with
    | RingPush item => pushed_since_clear calls ++ [item]
    | RingClear => []
    end.
Proof. unfold pushed_since_clear. by rewrite foldl_app. Qed.

Lemma represents_run c calls :
  1 ≤ c → represents c (ring_run calls (RingBuffer.new c)) (pushed_since_clear calls).
Proof.
  intros Hc. induction calls as [|call calls IH] using rev_ind.
  - by apply represents_new.
  - unfold ring_run in *. rewrite foldl_app, pushed_since_clear_snoc. simpl.
    destruct call as [item|]; simpl.
    + by apply represents_push.
    + by eapply represents_clear.
Qed.

(** X1. Whatever pushes and clears a buffer of capacity [c >= 1] has
    gone through, [toArray()] is the last [c] of the items pushed since
    the last clear, oldest first, and [size] is their number: a clear
    forgets every earlier item and nothing else. *)
Theorem ring_holds_last_items_since_clear c calls :
  1 ≤ c →
  let rb := ring_run calls (RingBuffer.new c) in
  RingBuffer.toArray rb = Some <$> last_items c (pushed_since_clear calls) ∧
  RingBuffer.size rb = Z.of_nat (length (last_items c (pushed_since_clear calls))).
Proof.
  intros Hc rb. pose proof (represents_run c calls Hc) as Hrep. fold rb in Hrep.
  split.
  - rewrite (toArray_represents c rb _ Hc Hrep). unfold last_items. do 2 f_equal. lia.
  - destruct Hrep as (_ & _ & _ & Hcount & _). unfold RingBuffer.size, last_items.
    rewrite Hcount, length_drop. lia.
Qed.

(** X2. The buffer stays within its bounds for good: after any pushes
    and clears on a buffer of capacity [c >= 1], the backing array has
    exactly [c] slots, the write position is inside it, and the count is
    between 0 and [c]. *)
Theorem ring_stays_within_capacity c calls :
  1 ≤ c →
  let rb := ring_run calls (RingBuffer.new c) in
  RingBuffer.capacity rb = c ∧
  Z.of_nat (length (RingBuffer.buffer rb)) = c ∧
  0 ≤ RingBuffer.head rb < c ∧
  0 ≤ RingBuffer.count rb ≤ c.
Proof.
  intros Hc rb. pose proof (represents_run c calls Hc) as Hrep. fold rb in Hrep.
  destruct Hrep as (Hcap & Hlen & Hhead & Hcount & _).
  split; [done|]. split; [lia|]. split.
  - rewrite Hhead. apply Z.mod_pos_bound. lia.
  - lia.
Qed.

Lemma filter_callback_since (get_id : T → RingBuffer.IdRead) (afterId : Z) (items : list T) :
  RingBuffer.filter_callback (RingBuffer.since_callback get_id afterId) (Some <$> items)
  = if decide (Forall (readable get_id) items)
    then Some (Some <$> filter (has_id_after get_id afterId) items)
    else None.
Proof.
  induction items as [|item items IH]; [done|].
  rewrite fmap_cons, filter_cons. cbn [RingBuffer.filter_callback]. rewrite IH.
  unfold RingBuffer.since_callback. cbn [mbind option_bind].
  destruct (get_id item) as [|n|] eqn:Hitem; cbn.
  - rewrite decide_False; [done|]. intros [Hread _]%Forall_cons. by apply Hread.
  - assert (readable get_id item) as Hread by (unfold readable; congruence).
    destruct (decide (Forall (readable get_id) items)) as [Hall|Hnot].
    + rewrite decide_True by by constructor. cbn.
      destruct (decide (has_id_after get_id afterId item)) as [Hid|Hid];
        unfold has_id_after in Hid; rewrite Hitem in Hid.
      * by rewrite bool_decide_eq_true_2.
      * by rewrite bool_decide_eq_false_2.
    + rewrite decide_False; [done|]. by intros [_ ?]%Forall_cons.
  - assert (readable get_id item) as Hread by (unfold readable; congruence).
    destruct (decide (Forall (readable get_id) items)) as [Hall|Hnot].
    + rewrite decide_True by by constructor. cbn.
      rewrite decide_False; [done|].
      intros Hid. unfold has_id_after in Hid. by rewrite Hitem in Hid.
    + rewrite decide_False; [done|]. by intros [_ ?]%Forall_cons.
Qed.

(** X3. On a buffer that has gone through any pushes and clears,
    [since(afterId)] raises exactly when one of the buffered items is
    [null] or [undefined], whose [id] cannot be read. If none is, it
    returns, in buffer order, exactly the buffered items that have a
    numeric [id] greater than [afterId], and drops the items whose [id]
    is no number. *)
Theorem ring_since_filters_buffered_items (get_id : T → RingBuffer.IdRead) c calls afterId :
  1 ≤ c →
  let items := last_items c (pushed_since_clear calls) in
  RingBuffer.since get_id afterId (ring_run calls (RingBuffer.new c))
  = if decide (Forall (readable get_id) items)
    then Some (Some <$> filter (has_id_after get_id afterId) items)
    else None.
Proof.
  intros Hc items. unfold RingBuffer.since.
  rewrite (toArray_represents c _ _ Hc (represents_run c calls Hc)).
  assert (drop (length (pushed_since_clear calls) - Z.to_nat c) (pushed_since_clear calls)
          = items) as ->.
  { unfold items, last_items. f_equal. lia. }
  apply filter_callback_since.
Qed.

End ring_buffer_calls_spec.

Lemma ring_holds_last_items_since_clear_witness :
  1 ≤ 2 ∧
  RingBuffer.toArray
    (ring_run [RingPush 1; RingPush 2; RingClear; RingPush 3; RingPush 4; RingPush 5]
       (RingBuffer.new 2))
  = [Some 4; Some 5].
Proof.
  split; [lia|].
  exact (proj1 (ring_holds_last_items_since_clear 2
    [RingPush 1; RingPush 2; RingClear; RingPush 3; RingPush 4; RingPush 5] ltac:(lia))).
Defined.

Lemma ring_stays_within_capacity_witness :
  1 ≤ 2 ∧
  Z.of_nat (length (RingBuffer.buffer
    (ring_run [RingPush 1; RingPush 2; RingClear; RingPush 3] (RingBuffer.new 2)))) = 2.
Proof.
  split; [lia|].
  exact (proj1 (proj2 (ring_stays_within_capacity 2
    [RingPush 1; RingPush 2; RingClear; RingPush 3] ltac:(lia)))).
Defined.

Lemma ring_since_filters_buffered_items_witness :
  let get_id (item : option Z) :=
    match item with
    | None => RingBuffer.IdRaises
    | Some n => if bool_decide (n < 100) then RingBuffer.IdNumber n else RingBuffer.IdOther
    end in
  1 ≤ 3 ∧
  RingBuffer.since get_id 1
    (ring_run [RingPush None; RingPush (Some 1); RingPush (Some 200); RingPush (Some 3)]
       (RingBuffer.new 3))
  = Some [Some (Some 3)].
Proof.
  intros get_id. split; [lia|].
  exact (ring_since_filters_buffered_items get_id 3
    [RingPush None; RingPush (Some 1); RingPush (Some 200); RingPush (Some 3)] 1 ltac:(lia)).
Defined.

(** With an item that is [null] still in the buffer, [since] raises. *)
Example ring_since_raises_on_a_null_item :
  let get_id (item : option Z) :=
    match item with
    | None => RingBuffer.IdRaises
    | Some n => RingBuffer.IdNumber n
    end in
  RingBuffer.since get_id 0
    (ring_run [RingPush (Some 1); RingPush None; RingPush (Some 3)] (RingBuffer.new 3))
  = None.
Proof. reflexivity. Qed.

(** ** The counters and the status of an ingestor *)

Section base_ingestor_calls_spec.
Context {Data : Type}.
Implicit Types (ing : BaseIngestor.t Data) (log : list (IngestedEvent Data))
  (inputs : list (string * Data * string)).

Lemma trace_total ing log :
  trace ing log → BaseIngestor.totalEventsReceived ing = Z.of_nat (length log).
Proof.
  induction 1 as [| ing log ty d now _ IH | |]; simpl; try done.
  rewrite length_app, IH. simpl. lia.
Qed.

(** X4. The counters of an ingestor tell its history: after any calls,
    [totalEventsReceived] is the number of events pushed so far, the ids
    handed out are 0, 1, 2, ... without a gap, every event carries the
    ingestor's connection alias as its [source], and [lastEventAt] is the
    [receivedAt] of the last event pushed ([null] before the first). *)
Theorem ingestor_counters_tell_history ing log :
  trace ing log →
  BaseIngestor.totalEventsReceived ing = Z.of_nat (length log) ∧
  id <$> log = seqZ 0 (Z.of_nat (length log)) ∧
  Forall (λ e, source e = BaseIngestor.connectionAlias ing) log ∧
  BaseIngestor.lastEventAt ing = receivedAt <$> last log.
Proof.
  induction 1 as [| ing log ty d now Htrace (IHt & IHi & IHs & IHl) | |]; simpl; try done.
  rewrite length_app, fmap_app, last_snoc. simpl.
  split; [lia|]. split; [|split; [|done]].
  - replace (Z.of_nat (length log + 1)) with (Z.of_nat (S (length log))) by lia.
    rewrite seqZ_S, IHi, IHt. done.
  - apply Forall_app. split; [done|]. by repeat constructor.
Qed.

(** X5. The status agrees with the buffer: on any state reached from the
    constructor, [bufferedEvents] is the number of events that
    [getEvents()] returns, and it exceeds neither the capacity of the ring
    buffer nor [totalEventsReceived]. *)
Theorem status_counts_buffered_events ing log :
  trace ing log →
  let status := BaseIngestor.getStatus ing in
  ∃ evs,
    BaseIngestor.getEvents None ing = Some (Some <$> evs) ∧
    bufferedEvents status = Z.of_nat (length evs) ∧
    bufferedEvents status ≤ RingBuffer.capacity (BaseIngestor.buffer ing) ∧
    bufferedEvents status ≤ status_totalEventsReceived status.
Proof.
  intros Htrace status.
  destruct (trace_buffer _ _ Htrace) as (c & live & Hc & Hrep & Hsuf).
  pose proof (trace_total _ _ Htrace) as Htotal.
  pose proof (toArray_represents c _ live Hc Hrep) as Harr.
  destruct Hrep as (Hcap & _ & _ & Hcount & _).
  apply suffix_length in Hsuf.
  exists (drop (length live - Z.to_nat c) live).
  unfold BaseIngestor.getEvents. simpl. rewrite Harr.
  split; [done|]. unfold RingBuffer.size. rewrite Hcount, Hcap, length_drop, Htotal.
  lia.
Qed.

Lemma pushAll_snoc inputs input ing :
  pushAll (inputs ++ [input]) ing
  = ((BaseIngestor.pushEvent input.1.1 input.1.2 input.2 (pushAll inputs ing).1).1,
     (pushAll inputs ing).2
       ++ [(BaseIngestor.pushEvent input.1.1 input.1.2 input.2 (pushAll inputs ing).1).2]).
Proof. unfold pushAll. by rewrite foldl_app. Qed.

Lemma pushAll_length inputs ing : length (pushAll inputs ing).2 = length inputs.
Proof.
  induction inputs as [|input inputs IH] using rev_ind; [done|].
  rewrite pushAll_snoc. cbn [snd]. by rewrite !length_app, IH.
Qed.

Lemma pushAll_trace inputs ing log :
  trace ing log → trace (pushAll inputs ing).1 (log ++ (pushAll inputs ing).2).
Proof.
  intros Htrace. induction inputs as [|input inputs IH] using rev_ind.
  - simpl. by rewrite app_nil_r.
  - rewrite pushAll_snoc. cbn [fst snd]. rewrite app_assoc. by apply trace_pushEvent.
Qed.

Lemma pushAll_represents inputs ing c live :
  1 ≤ c → represents c (BaseIngestor.buffer ing) live →
  represents c (BaseIngestor.buffer (pushAll inputs ing).1) (live ++ (pushAll inputs ing).2).
Proof.
  intros Hc Hrep. induction inputs as [|input inputs IH] using rev_ind.
  - simpl. by rewrite app_nil_r.
  - rewrite pushAll_snoc. cbn [fst snd]. rewrite app_assoc. simpl. by apply represents_push.
Qed.

Lemma pushAll_ids inputs ing :
  Forall (λ e, BaseIngestor.totalEventsReceived ing ≤ id e) (pushAll inputs ing).2 ∧
  BaseIngestor.totalEventsReceived ing
    ≤ BaseIngestor.totalEventsReceived (pushAll inputs ing).1.
Proof.
  induction inputs as [|input inputs [IHe IHt]] using rev_ind.
  - split; [constructor|done].
  - rewrite pushAll_snoc. cbn [fst snd]. split.
    + apply Forall_app. split; [done|]. by repeat constructor.
    + simpl. lia.
Qed.

Lemma filter_none {A} (P : A → Prop) `{!∀ x, Decision (P x)} (l : list A) :
  Forall (λ x, ¬ P x) l → filter P l = [].
Proof.
  induction 1 as [|x l Hx _ IH]; [done|]. by rewrite filter_cons, decide_False, IH.
Qed.

Lemma filter_all {A} (P : A → Prop) `{!∀ x, Decision (P x)} (l : list A) :
  Forall P l → filter P l = l.
Proof.
  induction 1 as [|x l Hx _ IH]; [done|]. by rewrite filter_cons, decide_True, IH.
Qed.

Lemma Forall_suffix_of {A} (P : A → Prop) (l1 l2 : list A) :
  l1 `suffix_of` l2 → Forall P l2 → Forall P l1.
Proof. intros [k ->]. by intros [_ ?]%Forall_app. Qed.

(** X6. Polling with a cursor loses nothing as long as the buffer is not
    overrun: if at most [capacity] events are pushed after a poll, then
    [getEvents(cursor)], with [cursor] the last id handed out before them
    (-1 if there was none), returns exactly those events, in the order
    they were pushed. *)
Theorem cursor_poll_returns_the_new_events ing log inputs :
  trace ing log →
  Z.of_nat (length inputs) ≤ RingBuffer.capacity (BaseIngestor.buffer ing) →
  let cursor := BaseIngestor.totalEventsReceived ing - 1 in
  BaseIngestor.getEvents (Some cursor) (pushAll inputs ing).1
  = Some (Some <$> (pushAll inputs ing).2).
Proof.
  intros Htrace Hfit cursor.
  destruct (trace_buffer _ _ Htrace) as (c & live & Hc & Hrep & Hsuf).
  destruct (trace_ids _ _ Htrace) as [_ Hbelow].
  pose proof (trace_total _ _ Htrace) as Htotal.
  pose proof (pushAll_represents inputs ing c live Hc Hrep) as Hrep'.
  pose proof (toArray_represents c _ _ Hc Hrep') as Harr.
  destruct (pushAll_ids inputs ing) as [Hnew _].
  pose proof (pushAll_length inputs ing) as Hlen.
  assert (RingBuffer.capacity (BaseIngestor.buffer ing) = c) as Hcap by apply Hrep.
  set (new := (pushAll inputs ing).2) in *.
  assert (drop (length (live ++ new) - Z.to_nat c) (live ++ new)
          = drop (length (live ++ new) - Z.to_nat c) live ++ new) as Hdrop.
  { rewrite drop_app_le by (rewrite length_app; lia). done. }
  unfold BaseIngestor.getEvents, RingBuffer.since. rewrite Harr, Hdrop. simpl.
  case_bool_decide as Hcursor.
  - assert (length log = 0%nat) as Hlog by (subst cursor; lia).
    apply suffix_length in Hsuf.
    assert (live = []) as -> by (apply nil_length_inv; lia).
    by rewrite drop_nil.
  - rewrite since_defined, filter_app. do 2 f_equal.
    rewrite (filter_none _ (drop _ live)), (filter_all _ new); [done| |].
    + eapply Forall_impl; [exact Hnew|]. intros e He. simpl in He. subst cursor. lia.
    + eapply Forall_impl.
      * eapply Forall_suffix_of; [apply suffix_drop|].
        eapply Forall_suffix_of; [exact Hsuf|exact Hbelow].
      * intros e He. simpl in He. subst cursor. lia.
Qed.

End base_ingestor_calls_spec.

Lemma ingestor_counters_tell_history_witness :
  ∃ log,
    trace Demo.github_ingestor log ∧
    BaseIngestor.totalEventsReceived Demo.github_ingestor = Z.of_nat (length log) ∧
    id <$> log = seqZ 0 (Z.of_nat (length log)) ∧
    Forall (λ e, source e = BaseIngestor.connectionAlias Demo.github_ingestor) log ∧
    BaseIngestor.lastEventAt Demo.github_ingestor = receivedAt <$> last log.
Proof.
  destruct github_ingestor_trace as [log Htrace]. exists log. split; [exact Htrace|].
  exact (ingestor_counters_tell_history _ log Htrace).
Defined.

Lemma status_counts_buffered_events_witness :
  ∃ log,
    trace Demo.github_ingestor log ∧
    ∃ evs,
      BaseIngestor.getEvents None Demo.github_ingestor = Some (Some <$> evs) ∧
      bufferedEvents (BaseIngestor.getStatus Demo.github_ingestor) = Z.of_nat (length evs) ∧
      bufferedEvents (BaseIngestor.getStatus Demo.github_ingestor)
        ≤ RingBuffer.capacity (BaseIngestor.buffer Demo.github_ingestor) ∧
      bufferedEvents (BaseIngestor.getStatus Demo.github_ingestor)
        ≤ status_totalEventsReceived (BaseIngestor.getStatus Demo.github_ingestor).
Proof.
  destruct github_ingestor_trace as [log Htrace]. exists log. split; [exact Htrace|].
  exact (status_counts_buffered_events _ log Htrace).
Defined.

Lemma cursor_poll_returns_the_new_events_witness :
  let inputs := [("push", "a", "2026-01-01T00:00:07.000Z");
                 ("issues", "b", "2026-01-01T00:00:08.000Z")] in
  ∃ log,
    trace Demo.github_ingestor log ∧
    Z.of_nat (length inputs) ≤ RingBuffer.capacity (BaseIngestor.buffer Demo.github_ingestor) ∧
    BaseIngestor.getEvents (Some (BaseIngestor.totalEventsReceived Demo.github_ingestor - 1))
      (pushAll inputs Demo.github_ingestor).1
    = Some (Some <$> (pushAll inputs Demo.github_ingestor).2).
Proof.
  intros inputs.
  assert (Z.of_nat (length inputs)
          ≤ RingBuffer.capacity (BaseIngestor.buffer Demo.github_ingestor)) as Hfit
    by (vm_compute; discriminate).
  destruct github_ingestor_trace as [log Htrace]. exists log.
  split; [exact Htrace|]. split; [exact Hfit|].
  exact (cursor_poll_returns_the_new_events _ log inputs Htrace Hfit).
Defined.

Example status_of_the_github_ingestor :
  BaseIngestor.getStatus Demo.github_ingestor
  = {| status_connection := "github";
       status_type := webhook;
       status_state := stopped;
       bufferedEvents := 2;
       status_totalEventsReceived := 3;
       status_lastEventAt := Some "2026-01-01T00:00:05.000Z";
       status_error := None |}.
Proof. by vm_compute. Qed.

(** ** The life of a GitHub webhook ingestor *)

Section github_calls_spec.
Context `{json : JsonParser} `{utf8 : Utf8Decoder} `{gh : GitHubTypes}.
Implicit Types (ing : GitHubWebhookIngestor.t) (headers : gmap string HeaderValue)
  (rawBody : Buffer) (now : string).

(** What [handleWebhook] may do to the ingestor: nothing, or one
    [pushEvent] on its base. *)
Lemma handleWebhook_state ing headers rawBody now :
  (GitHubWebhookIngestor.handleWebhook headers rawBody now ing).1.2 = ing ∨
  ∃ eventType data,
    (GitHubWebhookIngestor.handleWebhook headers rawBody now ing).1.2
    = GitHubWebhookIngestor.with_base ing
        (BaseIngestor.pushEvent eventType data now (GitHubWebhookIngestor.base ing)).1.
Proof.
  unfold GitHubWebhookIngestor.handleWebhook, GitHubWebhookIngestor.processBody.
  destruct (GitHubWebhookIngestor.checkSignature _ _ _); [by left|by left|].
  destruct (JSON_parse _); [|by left].
  destruct (_ && _); [by left|]. right. by eexists _, _.
Qed.

(** X7. A GitHub webhook ingestor changes its base state through
    [pushEvent] and the assignments to [state] only: in every state that
    the constructor, [start], [stop] and [handleWebhook] can bring about,
    the base is a state reached from the base constructor by such calls,
    the event filter is empty, the type is [webhook], and the path and
    the two signature fields are those of the configuration. *)
Theorem github_ingestor_keeps_base_traced ing :
  github_reachable ing →
  (∃ log, trace (GitHubWebhookIngestor.base ing) log) ∧
  GitHubWebhookIngestor.eventFilter ing = [] ∧
  BaseIngestor.ingestorType (GitHubWebhookIngestor.base ing) = webhook ∧
  GitHubWebhookIngestor.webhookPath ing = path (GitHubWebhookIngestor.webhookConfig ing) ∧
  GitHubWebhookIngestor.signatureHeaderName ing
    = signatureHeader (GitHubWebhookIngestor.webhookConfig ing) ∧
  GitHubWebhookIngestor.signatureSecretName ing
    = signatureSecret (GitHubWebhookIngestor.webhookConfig ing).
Proof.
  induction 1 as [alias secrets cfg size Hsize
                 | ing _ ([log Hlog] & IH)
                 | ing _ ([log Hlog] & IH)
                 | ing headers rawBody now _ ([log Hlog] & IH)].
  - split; [|done]. exists []. by apply trace_new.
  - split; [|done]. exists log. by apply trace_setState.
  - split; [|done]. exists log. by apply trace_setState.
  - destruct (handleWebhook_state ing headers rawBody now) as [->|(ty & d & ->)].
    + split; [by exists log|done].
    + split; [|done]. eexists. simpl. by apply trace_pushEvent.
Qed.

Lemma eventFilter_empty ing :
  github_reachable ing → GitHubWebhookIngestor.eventFilter ing = [].
Proof.
  induction 1 as [| | |ing headers rawBody now _ IH]; try done.
  by destruct (handleWebhook_state ing headers rawBody now) as [->|(ty & d & ->)].
Qed.

(** X8. What an accepted webhook does: when [handleWebhook] answers
    [accepted: true] on an ingestor built by the constructor, the answer
    has no [reason] (nothing is ever filtered out), the body has parsed,
    and exactly one event has been pushed and emitted, with the GitHub
    event header as its type, the clock reading as [receivedAt] and the
    delivery id, the event type and the parsed body as its data. *)
Theorem accepted_webhook_pushes_one_event ing headers rawBody now :
  github_reachable ing →
  accepted <$> (GitHubWebhookIngestor.handleWebhook headers rawBody now ing).1.1
    = Some true →
  ∃ payload,
    JSON_parse (Buffer_toString rawBody) = Some payload ∧
    let ghHeaders := extractGitHubHeaders headers in
    let pushed :=
      BaseIngestor.pushEvent (gh_event ghHeaders)
        (GitHubWebhookIngestor.mkData (gh_deliveryId ghHeaders) (gh_event ghHeaders) payload)
        now (GitHubWebhookIngestor.base ing) in
    GitHubWebhookIngestor.handleWebhook headers rawBody now ing
    = (Some (mkResult true None), GitHubWebhookIngestor.with_base ing pushed.1, [pushed.2]).
Proof.
  intros Hreach%eventFilter_empty.
  unfold GitHubWebhookIngestor.handleWebhook.
  destruct (GitHubWebhookIngestor.checkSignature _ _ _) as [r| |] eqn:Hcheck.
  { apply checkSignature_rejects in Hcheck as [Hacc _]. simpl. by rewrite Hacc. }
  { done. }
  unfold GitHubWebhookIngestor.processBody. rewrite Hreach.
  destruct (JSON_parse _) as [payload|]; [|done].
  intros _. by exists payload.
Qed.

(** X9. Parse errors are reported to verified senders only: on an
    ingestor with both signature fields configured, [handleWebhook]
    answers "Invalid JSON body" only for a request whose signature has
    verified under the resolved secret. *)
Theorem invalid_json_is_reported_after_verification ing headers rawBody now :
  both_configured ing →
  reason <$> (GitHubWebhookIngestor.handleWebhook headers rawBody now ing).1.1
    = Some (Some "Invalid JSON body") →
  signature_verified ing headers rawBody.
Proof.
  intros Hboth. unfold GitHubWebhookIngestor.handleWebhook.
  destruct (GitHubWebhookIngestor.checkSignature _ _ _) as [r| |] eqn:Hcheck.
  - apply checkSignature_rejects in Hcheck as [_ Hreason]. simpl. congruence.
  - done.
  - intros _. by apply checkSignature_passes.
Qed.

(** X10. [handleWebhook] does not look at the lifecycle state: on a
    stopped ingestor, and on a started one, it gives the same answer and
    emits the same events as on the ingestor itself, and leaves the state
    that [stop], respectively [start], makes of the ingestor's new state.
    A stopped ingestor still accepts webhooks and buffers their events. *)
Theorem handleWebhook_ignores_lifecycle_state ing headers rawBody now :
  let answer := GitHubWebhookIngestor.handleWebhook headers rawBody now ing in
  GitHubWebhookIngestor.handleWebhook headers rawBody now (GitHubWebhookIngestor.stop ing)
    = (answer.1.1, GitHubWebhookIngestor.stop answer.1.2, answer.2) ∧
  GitHubWebhookIngestor.handleWebhook headers rawBody now (GitHubWebhookIngestor.start ing)
    = (answer.1.1, GitHubWebhookIngestor.start answer.1.2, answer.2).
Proof.
  unfold GitHubWebhookIngestor.handleWebhook, GitHubWebhookIngestor.checkSignature,
    GitHubWebhookIngestor.verifySignature, GitHubWebhookIngestor.processBody. simpl.
  split; repeat (case_match; simpl; try done).
Qed.

(** What [handleWebhook] does once the signature check has passed and
    the body has parsed. *)
Lemma handleWebhook_passes ing headers rawBody now payload :
  GitHubWebhookIngestor.eventFilter ing = [] →
  GitHubWebhookIngestor.checkSignature (extractGitHubHeaders headers) rawBody ing
    = GitHubWebhookIngestor.CheckPasses →
  JSON_parse (Buffer_toString rawBody) = Some payload →
  let ghHeaders := extractGitHubHeaders headers in
  let pushed :=
    BaseIngestor.pushEvent (gh_event ghHeaders)
      (GitHubWebhookIngestor.mkData (gh_deliveryId ghHeaders) (gh_event ghHeaders) payload)
      now (GitHubWebhookIngestor.base ing) in
  GitHubWebhookIngestor.handleWebhook headers rawBody now ing
  = (Some (mkResult true None), GitHubWebhookIngestor.with_base ing pushed.1, [pushed.2]).
Proof.
  intros Hfilter Hcheck Hparse. unfold GitHubWebhookIngestor.handleWebhook.
  rewrite Hcheck. unfold GitHubWebhookIngestor.processBody. by rewrite Hparse, Hfilter.
Qed.

Lemma handleWebhook_accepted ing headers rawBody now :
  GitHubWebhookIngestor.eventFilter ing = [] →
  accepted <$> (GitHubWebhookIngestor.handleWebhook headers rawBody now ing).1.1
    = Some true →
  ∃ payload,
    JSON_parse (Buffer_toString rawBody) = Some payload ∧
    GitHubWebhookIngestor.checkSignature (extractGitHubHeaders headers) rawBody ing
      = GitHubWebhookIngestor.CheckPasses ∧
    let ghHeaders := extractGitHubHeaders headers in
    let pushed :=
      BaseIngestor.pushEvent (gh_event ghHeaders)
        (GitHubWebhookIngestor.mkData (gh_deliveryId ghHeaders) (gh_event ghHeaders) payload)
        now (GitHubWebhookIngestor.base ing) in
    GitHubWebhookIngestor.handleWebhook headers rawBody now ing
    = (Some (mkResult true None), GitHubWebhookIngestor.with_base ing pushed.1, [pushed.2]).
Proof.
  intros Hfilter Hacc.
  destruct (GitHubWebhookIngestor.checkSignature (extractGitHubHeaders headers) rawBody ing)
    as [r| |] eqn:Hcheck.
  { unfold GitHubWebhookIngestor.handleWebhook in Hacc. rewrite Hcheck in Hacc.
    apply checkSignature_rejects in Hcheck as [Hrej _]. simpl in Hacc. congruence. }
  { unfold GitHubWebhookIngestor.handleWebhook in Hacc. by rewrite Hcheck in Hacc. }
  destruct (JSON_parse (Buffer_toString rawBody)) as [payload|] eqn:Hparse.
  - exists payload. split; [done|]. split; [done|]. by apply handleWebhook_passes.
  - unfold GitHubWebhookIngestor.handleWebhook, GitHubWebhookIngestor.processBody in Hacc.
    by rewrite Hcheck, Hparse in Hacc.
Qed.

(** X11. Deliveries are not told apart: when a request is accepted, the
    same request handed to [handleWebhook] again is accepted again, and
    pushes a second event with the next id and the same type and data. The
    delivery id is stored and never compared. *)
Theorem replayed_webhook_is_pushed_again ing headers rawBody now later :
  github_reachable ing →
  let first := GitHubWebhookIngestor.handleWebhook headers rawBody now ing in
  let second := GitHubWebhookIngestor.handleWebhook headers rawBody later first.1.2 in
  accepted <$> first.1.1 = Some true →
  ∃ e1 e2,
    first.2 = [e1] ∧ second.2 = [e2] ∧ second.1.1 = Some (mkResult true None) ∧
    id e2 = id e1 + 1 ∧ eventType e2 = eventType e1 ∧ data e2 = data e1.
Proof.
  intros Hreach%eventFilter_empty first second Hacc.
  destruct (handleWebhook_accepted ing headers rawBody now Hreach Hacc)
    as (payload & Hparse & Hcheck & Hfirst).
  subst second. fold first in Hfirst. rewrite Hfirst. cbn [fst snd].
  rewrite (handleWebhook_passes _ headers rawBody later payload); [|done|done|done].
  eexists _, _. repeat split.
Qed.

End github_calls_spec.

Lemma github_ingestor_keeps_base_traced_witness :
  let ing :=
    (GitHubWebhookIngestor.handleWebhook (json := Demo.json) (utf8 := Demo.utf8)
       (gh := Demo.reject_all) ∅ (Demo.body "{}") "2026-01-01T00:00:00.000Z"
       (GitHubWebhookIngestor.start
          (GitHubWebhookIngestor.new "github" ∅ Demo.header_only None))).1.2 in
  github_reachable (utf8 := Demo.utf8) (gh := Demo.reject_all) ing ∧
  (∃ log, trace (GitHubWebhookIngestor.base ing) log) ∧
  GitHubWebhookIngestor.eventFilter ing = [] ∧
  BaseIngestor.ingestorType (GitHubWebhookIngestor.base ing) = webhook ∧
  GitHubWebhookIngestor.webhookPath ing = path (GitHubWebhookIngestor.webhookConfig ing) ∧
  GitHubWebhookIngestor.signatureHeaderName ing
    = signatureHeader (GitHubWebhookIngestor.webhookConfig ing) ∧
  GitHubWebhookIngestor.signatureSecretName ing
    = signatureSecret (GitHubWebhookIngestor.webhookConfig ing).
Proof.
  intros ing.
  assert (github_reachable (utf8 := Demo.utf8) (gh := Demo.reject_all) ing) as Hreach.
  { apply github_handleWebhook, github_start, github_new. by vm_compute. }
  split; [exact Hreach|].
  exact (github_ingestor_keeps_base_traced (utf8 := Demo.utf8) (gh := Demo.reject_all)
           ing Hreach).
Defined.

Lemma accepted_webhook_pushes_one_event_witness :
  let ing := GitHubWebhookIngestor.new (json := Demo.json) "github" ∅ Demo.header_only None in
  let headers : gmap string HeaderValue := {[ "x-github-event" := HeaderOne "push" ]} in
  let now := "2026-01-01T00:00:00.000Z" in
  ∃ payload,
    JSON_parse (JsonParser := Demo.json) "{}" = Some payload ∧
    GitHubWebhookIngestor.handleWebhook (utf8 := Demo.utf8) (gh := Demo.reject_all)
      headers (Demo.body "{}") now ing
    = (Some (mkResult true None),
       GitHubWebhookIngestor.with_base ing
         (BaseIngestor.pushEvent "push" (GitHubWebhookIngestor.mkData None "push" payload)
            now (GitHubWebhookIngestor.base ing)).1,
       [(BaseIngestor.pushEvent "push" (GitHubWebhookIngestor.mkData None "push" payload)
           now (GitHubWebhookIngestor.base ing)).2]).
Proof.
  intros ing headers now.
  apply (accepted_webhook_pushes_one_event (utf8 := Demo.utf8) (gh := Demo.reject_all)
           ing headers (Demo.body "{}") now).
  - apply github_new. by vm_compute.
  - by vm_compute.
Defined.

Lemma invalid_json_is_reported_after_verification_witness :
  let ing :=
    GitHubWebhookIngestor.new (json := Demo.json) "github"
      {[ "GITHUB_WEBHOOK_SECRET" := "s3cret" ]} Demo.both_fields None in
  let headers : gmap string HeaderValue :=
    {[ "x-hub-signature-256" := HeaderOne "sha256=7f" ]} in
  both_configured ing ∧
  GitHubWebhookIngestor.handleWebhook (utf8 := Demo.utf8) (gh := Demo.accept_signed)
    headers (Demo.body "not json") "2026-01-01T00:00:00.000Z" ing
  = (Some (mkResult false (Some "Invalid JSON body")), ing, []) ∧
  signature_verified (gh := Demo.accept_signed) ing headers (Demo.body "not json").
Proof.
  intros ing headers.
  assert (both_configured ing) as Hboth by (split; vm_compute; reflexivity).
  split; [exact Hboth|]. split; [by vm_compute|].
  apply (invalid_json_is_reported_after_verification (utf8 := Demo.utf8)
           (gh := Demo.accept_signed) ing headers (Demo.body "not json")
           "2026-01-01T00:00:00.000Z" Hboth).
  by vm_compute.
Defined.

Lemma replayed_webhook_is_pushed_again_witness :
  let ing := GitHubWebhookIngestor.new (json := Demo.json) "github" ∅ Demo.header_only None in
  let headers : gmap string HeaderValue :=
    {[ "x-github-event" := HeaderOne "push"; "x-github-delivery" := HeaderOne "d-1" ]} in
  let first :=
    GitHubWebhookIngestor.handleWebhook (utf8 := Demo.utf8) (gh := Demo.reject_all)
      headers (Demo.body "{}") "2026-01-01T00:00:00.000Z" ing in
  let second :=
    GitHubWebhookIngestor.handleWebhook (utf8 := Demo.utf8) (gh := Demo.reject_all)
      headers (Demo.body "{}") "2026-01-01T00:00:09.000Z" first.1.2 in
  ∃ e1 e2,
    first.2 = [e1] ∧ second.2 = [e2] ∧ second.1.1 = Some (mkResult true None) ∧
    id e2 = id e1 + 1 ∧ eventType e2 = eventType e1 ∧ data e2 = data e1.
Proof.
  intros ing headers.
  apply (replayed_webhook_is_pushed_again (utf8 := Demo.utf8) (gh := Demo.reject_all)
           ing headers (Demo.body "{}") "2026-01-01T00:00:00.000Z" "2026-01-01T00:00:09.000Z").
  - apply github_new. by vm_compute.
  - by vm_compute.
Defined.

(** ** Texts and their pieces *)

Lemma app_cons (a : ascii) (s1 s2 : string) : String a s1 +:+ s2 = String a (s1 +:+ s2).
Proof. reflexivity. Qed.

Lemma app_empty_l (s : string) : "" +:+ s = s.
Proof. reflexivity. Qed.


Lemma app_assoc_string (s1 s2 s3 : string) : (s1 +:+ s2) +:+ s3 = s1 +:+ (s2 +:+ s3).
Proof. induction s1 as [|a s1 IH]; [done|]. by rewrite !app_cons, IH. Qed.

Lemma contains_app (c : ascii) (s1 s2 : string) :
  contains c (s1 +:+ s2) = contains c s1 || contains c s2.
Proof.
  induction s1 as [|a s1 IH]; [done|]. rewrite app_cons. simpl. by rewrite IH, orb_assoc.
Qed.

Lemma split_nonempty (sep : ascii) (s : string) : JS.split sep s ≠ [].
Proof.
  destruct s as [|a s]; simpl; [done|].
  case_bool_decide; [done|]. by destruct (JS.split sep s).
Qed.

(** Splitting distributes over a separator. *)
Lemma split_app (sep : ascii) (s1 s2 : string) :
  JS.split sep (s1 +:+ String sep s2) = JS.split sep s1 ++ JS.split sep s2.
Proof.
  induction s1 as [|a s1 IH]; [rewrite app_empty_l|rewrite app_cons]; simpl.
  - by rewrite bool_decide_eq_true_2.
  - case_bool_decide; [by rewrite IH|].
    rewrite IH. pose proof (split_nonempty sep s1).
    by destruct (JS.split sep s1).
Qed.

(** A text without the separator is one piece. *)
Lemma split_without (sep : ascii) (s : string) :
  contains sep s = false → JS.split sep s = [s].
Proof.
  induction s as [|a s IH]; simpl; [done|].
  intros [Ha Hs]%orb_false_elim. apply bool_decide_eq_false in Ha.
  rewrite bool_decide_eq_false_2 by done. by rewrite IH.
Qed.

(** ** Stripe headers, built and parsed *)

Section stripe_header_spec.
Context `{utf8 : Utf8Decoder} `{hmac : HmacSha256} `{num : NumberConversion}.







(** X14. A component that is neither [t=] nor [v1=] has no say: adding,
    at the end of any header, a part without comma that is no component
    or has another key (a [v0=] signature, say) changes neither what the
    header parses to nor the verdict on it. *)
Theorem unknown_stripe_component_is_ignored rawBody header part secret tolerance now :
  contains "," part = false →
  (∀ key value, component part = Some (key, value) → key ≠ "t" ∧ key ≠ "v1") →
  Stripe.parseStripeSignatureHeader (header +:+ "," +:+ part)
    = Stripe.parseStripeSignatureHeader header ∧
  Stripe.verifyStripeSignature rawBody (header +:+ "," +:+ part) secret tolerance now
    = Stripe.verifyStripeSignature rawBody header secret tolerance now.
Proof.
  intros Hpart Hkey.
  assert (Stripe.parseStripeSignatureHeader (header +:+ "," +:+ part)
          = Stripe.parseStripeSignatureHeader header) as Hparse.
  { unfold Stripe.parseStripeSignatureHeader.
    change (header +:+ "," +:+ part) with (header +:+ String "," part).
    rewrite split_app, (split_without _ part) by done.
    rewrite !parse_parts_spec.
    assert (∀ key, key = "t" ∨ key = "v1" →
              values_of key (omap component (JS.split "," header ++ [part]))
              = values_of key (omap component (JS.split "," header))) as Hvalues.
    { intros key Hk. rewrite omap_app. cbn [omap list_omap].
      unfold values_of. rewrite filter_app, fmap_app.
      destruct (component part) as [[k v]|] eqn:Hc; simpl; [|by rewrite app_nil_r].
      destruct (Hkey k v eq_refl) as [? ?].
      rewrite filter_cons, decide_False; [by rewrite app_nil_r|].
      simpl. by destruct Hk as [-> | ->]. }
    by rewrite !Hvalues by auto. }
  split; [done|]. unfold Stripe.verifyStripeSignature. by rewrite Hparse.
Qed.

End stripe_header_spec.



Lemma unknown_stripe_component_is_ignored_witness :
  Stripe.parseStripeSignatureHeader (num := Demo.num) "t=1700000000,v1=28,v0=6ffbb5"
    = Stripe.parseStripeSignatureHeader (num := Demo.num) "t=1700000000,v1=28" ∧
  Stripe.verifyStripeSignature (utf8 := Demo.utf8) (hmac := Demo.hmac) (num := Demo.num)
    (Demo.body "{}") "t=1700000000,v1=28,v0=6ffbb5" "whsec" None (JS.number_of_Z 1700000120)
    = Stripe.verifyStripeSignature (utf8 := Demo.utf8) (hmac := Demo.hmac) (num := Demo.num)
        (Demo.body "{}") "t=1700000000,v1=28" "whsec" None (JS.number_of_Z 1700000120).
Proof.
  apply (unknown_stripe_component_is_ignored (utf8 := Demo.utf8) (hmac := Demo.hmac)
           (num := Demo.num) (Demo.body "{}") "t=1700000000,v1=28" "v0=6ffbb5").
  - reflexivity.
  - intros key value Hc. vm_compute in Hc. by injection Hc as <- <-.
Defined.

(** ** The ingestor manager, continued *)

Lemma startsWith_app (p s : string) : JS.startsWith (p +:+ s) p = true.
Proof.
  induction p as [|a p IH]; [by destruct s|].
  rewrite app_cons. simpl. by rewrite bool_decide_eq_true_2, IH.
Qed.

(** Without a colon in the aliases, a key starts with [callerAlias:] only
    if it is a key of that caller. *)
Lemma startsWith_registry_key (caller other connectionAlias : string) :
  contains ":" caller = false → contains ":" other = false →
  JS.startsWith (registry_key other connectionAlias) (caller +:+ ":")
  = bool_decide (other = caller).
Proof.
  unfold registry_key. revert other.
  induction caller as [|a caller IH]; intros [|b other] Hcaller Hother;
    repeat (rewrite app_empty_l || rewrite app_cons); cbn [JS.startsWith contains] in *.
  - rewrite !bool_decide_eq_true_2 by done. by destruct connectionAlias.
  - apply orb_false_elim in Hother as [Hb%bool_decide_eq_false _].
    rewrite (bool_decide_eq_false_2 (":"%char = b)) by (by intros <-).
    by rewrite bool_decide_eq_false_2.
  - apply orb_false_elim in Hcaller as [Ha%bool_decide_eq_false _].
    rewrite (bool_decide_eq_false_2 (a = ":"%char)) by done.
    by rewrite bool_decide_eq_false_2.
  - apply orb_false_elim in Hcaller as [_ Hcaller].
    apply orb_false_elim in Hother as [_ Hother].
    pose proof (IH other Hcaller Hother) as IH'.
    repeat (rewrite app_empty_l in IH' || rewrite app_cons in IH').
    rewrite IH'.
    destruct (decide (a = b)) as [->|Hab].
    + rewrite (bool_decide_eq_true_2 (b = b)) by done. simpl.
      apply bool_decide_ext. split; [by intros ->|by intros [= ->]].
    + rewrite (bool_decide_eq_false_2 (a = b)) by done. simpl.
      symmetry. apply bool_decide_eq_false. by intros [= -> ->].
Qed.

Section manager_more_spec.
Context `{collator : Collator} {Data : Type}.
Implicit Types (mgr : IngestorManager.t Data) (ing : BaseIngestor.t Data)
  (callerAlias connectionAlias : string) (afterId : option Z)
  (entries : list (string * BaseIngestor.t Data)).

Lemma collect_statuses_spec prefix entries statuses :
  IngestorManager.collect_statuses prefix entries statuses
  = statuses ++ ((λ entry, BaseIngestor.getStatus entry.2)
                   <$> filter (λ entry, JS.startsWith entry.1 prefix = true) entries).
Proof.
  revert statuses. induction entries as [|[key ing] entries IH]; intros statuses; simpl.
  - by rewrite app_nil_r.
  - rewrite filter_cons. simpl. destruct (JS.startsWith key prefix) eqn:Hkey.
    + rewrite decide_True by done. rewrite IH, <-app_assoc. done.
    + rewrite decide_False by done. apply IH.
Qed.

(** The loop of [getAllEvents] passes over the entries of other
    prefixes. *)
Lemma collect_filter prefix after entries events :
  IngestorManager.collect prefix after entries events
  = IngestorManager.collect prefix after
      (filter (λ entry, JS.startsWith entry.1 prefix = true) entries) events.
Proof.
  revert events. induction entries as [|[key ing] entries IH]; intros events; [done|].
  rewrite filter_cons. simpl. destruct (JS.startsWith key prefix) eqn:Hkey.
  - rewrite decide_True by done. simpl. rewrite Hkey.
    destruct (BaseIngestor.getEvents _ ing); simpl; [apply IH|done].
  - rewrite decide_False by done. apply IH.
Qed.

Lemma entries_of_registry callerAlias (l : list (string * string * BaseIngestor.t Data)) :
  contains ":" callerAlias = false →
  Forall (λ r, contains ":" r.1.1 = false) l →
  entries_of callerAlias (registry l)
  = IngestorManager.ingestors (registry (filter (λ r, r.1.1 = callerAlias) l)).
Proof.
  intros Hcaller Hall. unfold entries_of, registry. simpl.
  induction Hall as [|[[other connectionAlias] ing] l Hother _ IH]; [done|].
  rewrite fmap_cons, !filter_cons. simpl in *.
  rewrite startsWith_registry_key by done.
  destruct (decide (other = callerAlias)) as [->|Hne].
  - rewrite bool_decide_eq_true_2, decide_True by done. by rewrite fmap_cons, IH.
  - rewrite bool_decide_eq_false_2, decide_False by done. done.
Qed.

Lemma Map_get_Some key entries ing :
  IngestorManager.Map_get key entries = Some ing → (key, ing) ∈ entries.
Proof.
  induction entries as [|[k i] entries IH]; [done|]. simpl.
  case_bool_decide as Hk.
  - intros [= ->]. subst k. left.
  - intros Hget. right. by apply IH.
Qed.

Lemma Map_get_None key entries :
  key ∉ entries.*1 → IngestorManager.Map_get key entries = None.
Proof.
  induction entries as [|[k i] entries IH]; [done|]. simpl.
  intros [Hk Hkeys]%not_elem_of_cons. rewrite bool_decide_eq_false_2 by done. by apply IH.
Qed.

Lemma Map_get_unique key ing entries :
  NoDup entries.*1 → (key, ing) ∈ entries → IngestorManager.Map_get key entries = Some ing.
Proof.
  induction entries as [|[k i] entries IH]; [by intros _ ?%elem_of_nil|]. simpl.
  intros [Hk Hkeys]%NoDup_cons [[= -> ->]|Hin]%elem_of_cons.
  - by rewrite bool_decide_eq_true_2.
  - rewrite bool_decide_eq_false_2; [by apply IH|].
    intros ->. apply Hk. apply list_elem_of_fmap. by exists (key, ing).
Qed.

Lemma events_of_all_length ing log :
  trace ing log →
  Z.of_nat (length (events_of None ing)) = bufferedEvents (BaseIngestor.getStatus ing).
Proof.
  intros Htrace.
  destruct (trace_buffer _ _ Htrace) as (c & live & Hc & Hrep & Hsuf).
  pose proof (toArray_represents c _ live Hc Hrep) as Harr.
  destruct Hrep as (Hcap & _ & _ & Hcount & _).
  unfold events_of, BaseIngestor.getEvents. simpl. rewrite Harr, defined_Some.
  unfold RingBuffer.size. rewrite Hcount, length_drop. clear -Hc. lia.
Qed.

(** X15. Callers are kept apart by the key prefix: in a registry whose
    keys are [caller:connection] with no colon in a caller alias,
    [getStatuses(caller)] returns the statuses of that caller's ingestors,
    in registry order, and of no other. *)
Theorem statuses_are_the_callers_own callerAlias
    (l : list (string * string * BaseIngestor.t Data)) :
  contains ":" callerAlias = false →
  Forall (λ r, contains ":" r.1.1 = false) l →
  IngestorManager.getStatuses callerAlias (registry l)
  = (λ r, BaseIngestor.getStatus r.2) <$> filter (λ r, r.1.1 = callerAlias) l.
Proof.
  intros Hcaller Hall. unfold IngestorManager.getStatuses.
  rewrite collect_statuses_spec, app_nil_l.
  pose proof (entries_of_registry callerAlias l Hcaller Hall) as Hentries.
  unfold entries_of in Hentries. rewrite Hentries. unfold registry. simpl.
  by rewrite <-list_fmap_compose.
Qed.

(** X16. The ingestors of other callers have no say in [getAllEvents]:
    with no colon in a caller alias, the result for a caller is the
    result on the registry that holds that caller's ingestors only. *)
Theorem other_callers_do_not_affect_getAllEvents callerAlias afterId
    (l : list (string * string * BaseIngestor.t Data)) :
  contains ":" callerAlias = false →
  Forall (λ r, contains ":" r.1.1 = false) l →
  IngestorManager.getAllEvents callerAlias afterId (registry l)
  = IngestorManager.getAllEvents callerAlias afterId
      (registry (filter (λ r, r.1.1 = callerAlias) l)).
Proof.
  intros Hcaller Hall. unfold IngestorManager.getAllEvents.
  pose proof (entries_of_registry callerAlias l Hcaller Hall) as Hentries.
  unfold entries_of in Hentries.
  by rewrite (collect_filter _ _ (IngestorManager.ingestors (registry l))), Hentries.
Qed.

(** X17. What [getEvents] returns for one connection of a caller is part
    of what [getAllEvents] returns for the caller, with the same cursor:
    every event of the connection, as often as it occurs. It is what the
    ingestor registered under the key of the connection returns for the
    cursor; for a connection that the registry has no key for, it is the
    empty list. *)
Theorem connection_events_are_among_all_events callerAlias connectionAlias afterId mgr :
  running mgr →
  ∃ one all,
    IngestorManager.getEvents callerAlias connectionAlias afterId mgr = Some one ∧
    IngestorManager.getAllEvents callerAlias afterId mgr = Some all ∧
    one ⊆+ all ∧
    (∀ ing, NoDup (IngestorManager.ingestors mgr).*1 →
       (registry_key callerAlias connectionAlias, ing) ∈ IngestorManager.ingestors mgr →
       one = Some <$> events_of afterId ing) ∧
    (registry_key callerAlias connectionAlias ∉ (IngestorManager.ingestors mgr).*1 →
     one = []).
Proof.
  intros Hrun.
  pose proof (collect_running callerAlias afterId _ [] Hrun) as Hcollect.
  rewrite fmap_nil in Hcollect.
  assert (IngestorManager.getAllEvents callerAlias afterId mgr
          = Some (Some <$> JS.sort_defined by_receivedAt (merged callerAlias afterId mgr)))
    as Hall.
  { unfold IngestorManager.getAllEvents. rewrite Hcollect. simpl.
    by rewrite sort_all_defined. }
  unfold IngestorManager.getEvents.
  destruct (IngestorManager.Map_get _ _) as [ing|] eqn:Hget.
  - pose proof Hget as Hfound. apply Map_get_Some in Hget.
    destruct (proj1 (Forall_forall _ _) Hrun _ Hget) as [log Htrace]. simpl in Htrace.
    eexists _, _. split; [by apply (getEvents_traced afterId ing log)|].
    split; [exact Hall|]. split; [|split].
    2:{ intros ing' Hkeys Hin. apply (Map_get_unique _ _ _ Hkeys) in Hin.
        unfold registry_key in Hin. congruence. }
    2:{ intros Hkey. apply Map_get_None in Hkey. unfold registry_key in Hkey. congruence. }
    apply fmap_submseteq.
    rewrite sort_defined_perm. unfold merged, entries_of.
    assert ((callerAlias +:+ ":" +:+ connectionAlias, ing)
            ∈ filter (λ entry, JS.startsWith entry.1 (callerAlias +:+ ":") = true)
                (IngestorManager.ingestors mgr)) as Hin.
    { apply list_elem_of_filter. split; [|done]. simpl.
      rewrite <-app_assoc_string. apply startsWith_app. }
    apply list_elem_of_split in Hin as (before & after & ->).
    rewrite bind_app, bind_cons. simpl.
    apply submseteq_inserts_l, submseteq_inserts_r. done.
  - eexists [], _. split; [done|]. split; [exact Hall|]. split; [apply submseteq_nil_l|].
    split; [|done].
    intros ing Hkeys Hin. apply (Map_get_unique _ _ _ Hkeys) in Hin.
    unfold registry_key in Hin. congruence.
Qed.

(** X18. The statuses add up to the events: for ingestors in states
    reached from their construction, the [bufferedEvents] of the statuses
    that [getStatuses(caller)] returns sum to the number of events that
    [getAllEvents(caller)] returns. *)
Theorem statuses_count_all_events callerAlias mgr :
  running mgr →
  ∃ all,
    IngestorManager.getAllEvents callerAlias None mgr = Some all ∧
    Z.of_nat (length all)
    = foldr (λ status n, bufferedEvents status + n) 0
        (IngestorManager.getStatuses callerAlias mgr).
Proof.
  intros Hrun.
  pose proof (collect_running callerAlias None _ [] Hrun) as Hcollect.
  rewrite fmap_nil in Hcollect.
  eexists. split.
  { unfold IngestorManager.getAllEvents. rewrite Hcollect. simpl.
    by rewrite sort_all_defined. }
  rewrite length_fmap, sort_defined_perm.
  unfold IngestorManager.getStatuses. rewrite collect_statuses_spec, app_nil_l.
  unfold merged, entries_of, running in *. destruct mgr as [entries]. simpl in *.
  clear Hcollect.
  induction Hrun as [|[key ing] entries [log Htrace] _ IH]; [done|].
  rewrite filter_cons. simpl in *. case_decide; [|done].
  rewrite fmap_cons, bind_cons, length_app. simpl.
  pose proof (events_of_all_length ing log Htrace) as Hlen. simpl in Hlen.
  rewrite <-IH, <-Hlen. lia.
Qed.

End manager_more_spec.

Lemma statuses_are_the_callers_own_witness :
  IngestorManager.getStatuses "agent" (registry Demo.connections)
  = [BaseIngestor.getStatus Demo.github_ingestor; BaseIngestor.getStatus Demo.stripe_ingestor].
Proof.
  apply (statuses_are_the_callers_own "agent" Demo.connections).
  - reflexivity.
  - repeat constructor.
Defined.

Lemma other_callers_do_not_affect_getAllEvents_witness :
  IngestorManager.getAllEvents (collator := Demo.collator) "agent" (Some 0)
    (registry Demo.connections)
  = IngestorManager.getAllEvents (collator := Demo.collator) "agent" (Some 0)
      (registry [("agent", "github", Demo.github_ingestor);
                 ("agent", "stripe", Demo.stripe_ingestor)]).
Proof.
  apply (other_callers_do_not_affect_getAllEvents (collator := Demo.collator)
           "agent" (Some 0) Demo.connections).
  - reflexivity.
  - repeat constructor.
Defined.

Lemma connection_events_are_among_all_events_witness :
  running Demo.manager ∧
  ∃ one all,
    IngestorManager.getEvents "agent" "stripe" (Some 0) Demo.manager = Some one ∧
    IngestorManager.getAllEvents (collator := Demo.collator) "agent" (Some 0) Demo.manager
      = Some all ∧
    one ⊆+ all ∧
    (∀ ing, NoDup (IngestorManager.ingestors Demo.manager).*1 →
       (registry_key "agent" "stripe", ing) ∈ IngestorManager.ingestors Demo.manager →
       one = Some <$> events_of (Some 0) ing) ∧
    (registry_key "agent" "stripe" ∉ (IngestorManager.ingestors Demo.manager).*1 → one = []).
Proof.
  split; [exact demo_manager_running|].
  exact (connection_events_are_among_all_events (collator := Demo.collator)
           "agent" "stripe" (Some 0) Demo.manager demo_manager_running).
Defined.

Lemma statuses_count_all_events_witness :
  running Demo.manager ∧
  ∃ all,
    IngestorManager.getAllEvents (collator := Demo.collator) "agent" None Demo.manager
      = Some all ∧
    Z.of_nat (length all)
    = foldr (λ status n, bufferedEvents status + n) 0
        (IngestorManager.getStatuses "agent" Demo.manager).
Proof.
  split; [exact demo_manager_running|].
  exact (statuses_count_all_events (collator := Demo.collator)
           "agent" Demo.manager demo_manager_running).
Defined.

(** A colon in a caller alias breaks the separation: the caller [agent]
    is shown the ingestor that caller [agent:x] registered. *)
Example colon_in_alias_leaks_statuses :
  IngestorManager.getStatuses "agent"
    (registry [("agent:x", "github", Demo.github_ingestor)])
  = [BaseIngestor.getStatus Demo.github_ingestor].
Proof. reflexivity. Qed.

Example getEvents_of_an_unknown_connection :
  IngestorManager.getEvents "agent" "trello" None Demo.manager = Some [].
Proof. reflexivity. Qed.
